(** * Huffman encoder of [huffnpuff/huffnpuff.py]: a shallow embedding

    The development follows the Python module top to bottom: the [Node]
    class, the [heapq] routines the encoder calls, the methods of
    [HuffmanEncoder] as state transformers over the encoder object, and then
    the properties of each stage.

    Conventions of the embedding:
    - a Python [str] is a [list ascii]; a one-character string (a symbol, the
      key of the frequency and code tables) is an [ascii];
    - a Python [int] is a [Z]; list indices are [nat];
    - a Python [dict] is an association list in insertion order with unique
      keys ([dict_set] overwrites in place or appends), because [make_heap]
      iterates over [freq_dict.items()] and that order decides ties;
    - a method is a function from the encoder object to the new encoder
      object and either a value or the exception raised. *)

From Stdlib Require Import ZArith Ascii String List Lia ZifyNat.
From stdpp Require Import base list strings.

Open Scope Z_scope.

(** [lia] reads divisions and remainders by constants. *)
Ltac Zify.zify_post_hook ::= Z.to_euclidean_division_equations.

(** ** Python values *)

Definition str : Type := list ascii.

(** A string literal of the source. *)
Definition py (s : string) : str := list_ascii_of_string s.

(** The exceptions that the module meets: those its own statements raise,
    and, by the name of their class, those that [open], [read] and [write]
    raise on a file ([IsADirectoryError], [PermissionError],
    [UnicodeDecodeError], ...). *)
Inductive exception : Type :=
  | IndexError
  | KeyError (key : ascii)
  | ValueError
  | FileNotFoundError (input_file : str)
  | OtherException (class_name : string).

(** The name of the exception's class. *)
Definition exc_name (e : exception) : string :=
  match e with
  | IndexError => "IndexError"
  | KeyError _ => "KeyError"
  | ValueError => "ValueError"
  | FileNotFoundError _ => "FileNotFoundError"
  | OtherException class_name => class_name
  end.

Inductive result (A : Type) : Type :=
  | Ok (a : A)
  | Raise (e : exception).
Arguments Ok {A} a.
Arguments Raise {A} e.

(** ** Dictionaries (insertion ordered) *)

Section Dict.
Context {K V : Type} `{EqDecision K}.

Definition dict : Type := list (K * V).

(** [d.get(k)] *)
Fixpoint dict_get (k : K) (d : dict) : option V :=
  match d with
  | [] => None
  | (k', v) :: d' => if decide (k = k') then Some v else dict_get k d'
  end.

(** [d[k] = v] *)
Fixpoint dict_set (k : K) (v : V) (d : dict) : dict :=
  match d with
  | [] => [(k, v)]
  | (k', v') :: d' =>
      if decide (k = k') then (k', v) :: d' else (k', v') :: dict_set k v d'
  end.

(** [d.keys()] and [d.values()] *)
Definition dict_keys (d : dict) : list K := map fst d.
Definition dict_values (d : dict) : list V := map snd d.
End Dict.
Arguments dict : clear implicits.

(** ** class Node *)

#[warnings="-register-all"] Inductive Node : Type :=
  mkNode { char : option ascii; freq : Z; left : option Node; right : option Node }.

(** [Node(char, freq)] *)
Definition new_Node (char : option ascii) (freq : Z) : Node :=
  mkNode char freq None None.

(** [Node.__lt__] *)
Definition Node_lt (self other : Node) : bool := freq self <? freq other.

Global Instance Node_inhabited : Inhabited Node := populate (new_Node None 0).

(** ** heapq *)

(** The four routines of the standard [heapq] module that the encoder
    reaches, after [Lib/heapq.py] (the C accelerator makes the same
    comparisons in the same order). [heap[i]] is [heap !!! i] and
    [heap[i] = x] is [<[i := x]> heap]: every index read or written is in
    range by the loop conditions ([parentpos < pos], [childpos < endpos]).
    The loops are driven by a counter that bounds their iterations: [pos]
    halves in [_siftdown] and grows in [_siftup]. *)

Fixpoint siftdown_loop (fuel : nat) (heap : list Node) (startpos pos : nat)
    (newitem : Node) : list Node :=
  match fuel with
  | O => <[pos := newitem]> heap
  | S fuel' =>
      if (startpos <? pos)%nat then
        let parentpos := Nat.shiftr (pos - 1) 1 in
        let parent := heap !!! parentpos in
        if Node_lt newitem parent then
          siftdown_loop fuel' (<[pos := parent]> heap) startpos parentpos newitem
        else <[pos := newitem]> heap
      else <[pos := newitem]> heap
  end.

Definition _siftdown (heap : list Node) (startpos pos : nat) : list Node :=
  let newitem := heap !!! pos in
  siftdown_loop pos heap startpos pos newitem.

(** The loop of [_siftup]: returns the heap and the leaf position reached. *)
Fixpoint siftup_loop (fuel : nat) (heap : list Node) (endpos pos : nat)
    : list Node * nat :=
  match fuel with
  | O => (heap, pos)
  | S fuel' =>
      let childpos := (2 * pos + 1)%nat in
      if (childpos <? endpos)%nat then
        let rightpos := (childpos + 1)%nat in
        let childpos :=
          if (rightpos <? endpos)%nat
             && negb (Node_lt (heap !!! childpos) (heap !!! rightpos))
          then rightpos else childpos in
        siftup_loop fuel' (<[pos := heap !!! childpos]> heap) endpos childpos
      else (heap, pos)
  end.

Definition _siftup (heap : list Node) (pos : nat) : list Node :=
  let endpos := length heap in
  let startpos := pos in
  let newitem := heap !!! pos in
  let '(heap, pos) := siftup_loop endpos heap endpos pos in
  let heap := <[pos := newitem]> heap in
  _siftdown heap startpos pos.

Definition heappush (heap : list Node) (item : Node) : list Node :=
  let heap := heap ++ [item] in
  _siftdown heap 0 (length heap - 1).

(** [list.pop()]: the last element and the list without it. *)
Definition list_pop {A} (l : list A) : result (A * list A) :=
  match last l with
  | Some x => Ok (x, removelast l)
  | None => Raise IndexError
  end.

Definition heappop (heap : list Node) : result (Node * list Node) :=
  match list_pop heap with
  | Raise e => Raise e
  | Ok (lastelt, heap) =>
      match heap with
      | _ :: _ =>
          let returnitem := heap !!! 0%nat in
          let heap := <[0%nat := lastelt]> heap in
          let heap := _siftup heap 0 in
          Ok (returnitem, heap)
      | [] => Ok (lastelt, heap)
      end
  end.

(** ** class HuffmanEncoder *)

Record HuffmanEncoder : Type := mkHuffmanEncoder {
  heap : list Node;
  codes : dict ascii str;
  reverse_codes : dict str ascii;
  padding : Z
}.

(** [HuffmanEncoder.__init__] *)
Definition new_HuffmanEncoder : HuffmanEncoder :=
  mkHuffmanEncoder [] [] [] 0.

(** A method: from the object to the object afterwards and the outcome. *)
Definition M (A : Type) : Type := HuffmanEncoder -> HuffmanEncoder * result A.

Definition ret {A} (a : A) : M A := fun self => (self, Ok a).
Definition raise {A} (e : exception) : M A := fun self => (self, Raise e).
Definition bind {A B} (m : M A) (k : A -> M B) : M B :=
  fun self =>
    match m self with
    | (self', Ok a) => k a self'
    | (self', Raise e) => (self', Raise e)
    end.
Definition lift {A} (r : result A) : M A := fun self => (self, r).

Notation "x <- m ;; k" := (bind m (fun x => k))
  (at level 100, m at next level, right associativity).

Definition set_heap (h : list Node) (self : HuffmanEncoder) : HuffmanEncoder :=
  mkHuffmanEncoder h (codes self) (reverse_codes self) (padding self).
Definition set_tables (t : dict ascii str * dict str ascii)
    (self : HuffmanEncoder) : HuffmanEncoder :=
  mkHuffmanEncoder (heap self) (fst t) (snd t) (padding self).
Definition set_padding (p : Z) (self : HuffmanEncoder) : HuffmanEncoder :=
  mkHuffmanEncoder (heap self) (codes self) (reverse_codes self) p.

(** *** make_frequency_dict *)

Definition count_char (freq_dict : dict ascii Z) (char : ascii) : dict ascii Z :=
  dict_set char (default 0 (dict_get char freq_dict) + 1) freq_dict.

Definition frequency_dict (text : str) : dict ascii Z :=
  fold_left count_char text [].

Definition make_frequency_dict (text : str) : M (dict ascii Z) :=
  ret (frequency_dict text).

(** *** make_heap *)

Definition push_item (heap : list Node) (item : ascii * Z) : list Node :=
  let '(char, freq) := item in
  let node := new_Node (Some char) freq in
  heappush heap node.

Definition make_heap (freq_dict : dict ascii Z) : M unit :=
  fun self => (set_heap (fold_left push_item freq_dict (heap self)) self, Ok tt).

(** *** merge_nodes *)

(** One pass through the body of the [while] loop: the heap as the pass
    leaves it, and the exception if a pop raised. *)
Definition merge_body (heap : list Node) : list Node * result unit :=
  match heappop heap with
  | Raise e => (heap, Raise e)
  | Ok (node1, heap) =>
      match heappop heap with
      | Raise e => (heap, Raise e)
      | Ok (node2, heap) =>
          let merged := new_Node None (freq node1 + freq node2) in
          let merged := mkNode (char merged) (freq merged) (Some node1) (right merged) in
          let merged := mkNode (char merged) (freq merged) (left merged) (Some node2) in
          (heappush heap merged, Ok tt)
      end
  end.

(** The loop, bounded by the number of nodes: each pass removes one. *)
Fixpoint merge_loop (fuel : nat) (heap : list Node) : list Node * result unit :=
  match fuel with
  | O => (heap, Ok tt)
  | S fuel' =>
      if (1 <? length heap)%nat then
        match merge_body heap with
        | (heap, Ok _) => merge_loop fuel' heap
        | (heap, Raise e) => (heap, Raise e)
        end
      else (heap, Ok tt)
  end.

Definition merge_nodes : M unit :=
  fun self =>
    let '(h, r) := merge_loop (length (heap self)) (heap self) in
    (set_heap h self, r).

(** *** make_codes_helper, make_codes *)

Definition tables : Type := dict ascii str * dict str ascii.

(** The body of [make_codes_helper] on a node that is not [None], with the
    two recursive calls on the optional children written in place: the pair
    [self.codes], [self.reverse_codes] goes in and comes out. *)
Fixpoint codes_of_node (node : Node) (current_code : str) (t : tables) : tables :=
  match node with
  | mkNode (Some c) _ _ _ =>
      (dict_set c current_code (fst t), dict_set current_code c (snd t))
  | mkNode None _ l r =>
      let t :=
        match l with
        | Some n => codes_of_node n (current_code ++ py "0") t
        | None => t
        end in
      match r with
      | Some n => codes_of_node n (current_code ++ py "1") t
      | None => t
      end
  end.

Definition make_codes_helper (node : option Node) (current_code : str) : M unit :=
  fun self =>
    match node with
    | None => (self, Ok tt)
    | Some n =>
        (set_tables (codes_of_node n current_code (codes self, reverse_codes self)) self,
         Ok tt)
    end.

Definition heappop_self : M Node :=
  fun self =>
    match heappop (heap self) with
    | Ok (item, h) => (set_heap h self, Ok item)
    | Raise e => (self, Raise e)
    end.

Definition make_codes : M unit :=
  root <- heappop_self ;;
  make_codes_helper (Some root) (py "").

(** *** get_encoded_text *)

Fixpoint encode_loop (codes : dict ascii str) (text : str) (encoded_text : str)
    : result str :=
  match text with
  | [] => Ok encoded_text
  | char :: text' =>
      match dict_get char codes with
      | Some code => encode_loop codes text' (encoded_text ++ code)
      | None => Raise (KeyError char)
      end
  end.

Definition get_encoded_text (text : str) : M str :=
  fun self => (self, encode_loop (codes self) text (py "")).

(** *** pad_encoded_text *)

Definition pad_encoded_text (encoded_text : str) : M (str * Z) :=
  fun self =>
    let padding := 8 - (Z.of_nat (length encoded_text) mod 8) in
    let encoded_text := encoded_text ++ replicate (Z.to_nat padding) "0"%char in
    (set_padding padding self, Ok (encoded_text, padding)).

(** *** compress *)

(** [int(byte, 2)] on a string of binary digits. The sign, prefix,
    underscore and whitespace forms that [int] also reads never reach it
    here: [byte] is a slice of [padded_text]. *)
Fixpoint int2_digits (acc : Z) (s : str) : result Z :=
  match s with
  | [] => Ok acc
  | c :: s' =>
      if decide (c = "0"%char) then int2_digits (2 * acc) s'
      else if decide (c = "1"%char) then int2_digits (2 * acc + 1) s'
      else Raise ValueError
  end.

Definition int_base2 (s : str) : result Z :=
  match s with
  | [] => Raise ValueError
  | _ => int2_digits 0 s
  end.

(** [range(0, n, 8)] *)
Definition range8 (n : nat) : list nat :=
  map (fun k => (8 * k)%nat) (seq 0 ((n + 7) / 8)).

(** [bytearray.append] and [bytes([...])] accept only [range(256)]. *)
Definition byte_value (v : Z) : result Z :=
  if (0 <=? v) && (v <? 256) then Ok v else Raise ValueError.

Fixpoint pack_loop (padded_text : str) (idx : list nat) (final_bytes : list Z)
    : result (list Z) :=
  match idx with
  | [] => Ok final_bytes
  | i :: idx' =>
      let byte := take 8 (drop i padded_text) in
      match int_base2 byte with
      | Raise e => Raise e
      | Ok v =>
          match byte_value v with
          | Raise e => Raise e
          | Ok b => pack_loop padded_text idx' (final_bytes ++ [b])
          end
      end
  end.

Definition pack_bytes (padded_text : str) : result (list Z) :=
  pack_loop padded_text (range8 (length padded_text)) [].

(** The part of [compress] between reading the input file and writing the
    output file: the bytes written, header byte first. *)
Definition compress_text (text : str) : M (list Z) :=
  freq_dict <- make_frequency_dict text ;;
  _ <- make_heap freq_dict ;;
  _ <- merge_nodes ;;
  _ <- make_codes ;;
  encoded_text <- get_encoded_text text ;;
  r <- pad_encoded_text encoded_text ;;
  let '(padded_text, padding) := r in
  final_bytes <- lift (pack_bytes padded_text) ;;
  header <- lift (byte_value padding) ;;
  ret (header :: final_bytes).

(** The files as [compress] meets them: whether [os.path.exists] finds the
    name; what [open(name, 'r')] and [file.read()] give, the text or the
    exception they raise on a file that exists but is a directory, may not be
    read or does not decode; and what [open(name, 'wb')] and the two [write]
    calls do with the bytes, nothing to report or the exception they raise. *)
Record FileSystem : Type := mkFileSystem {
  path_exists : str -> bool;
  read_text : str -> result str;
  write_bytes : str -> list Z -> result unit
}.

(** [compress]: the name of the output file, and with it the bytes written.
    ([bytes([padding])] is evaluated after the output file is opened; it
    cannot raise, the padding being between 1 and 8, so that [compress_text]
    checks it before the file is opened makes no difference.) *)
Definition compress (fs : FileSystem) (input_file : str) : M (str * list Z) :=
  if negb (path_exists fs input_file) then raise (FileNotFoundError input_file)
  else
    text <- lift (read_text fs input_file) ;;
    content <- compress_text text ;;
    let output_file := input_file ++ py ".bin" in
    _ <- lift (write_bytes fs output_file content) ;;
    ret (output_file, content).

(** * The vocabulary of the properties *)

(** [text.count(c)] *)
Fixpoint occurrences (c : ascii) (text : str) : nat :=
  match text with
  | [] => 0%nat
  | x :: text' => ((if decide (x = c) then 1 else 0) + occurrences c text')%nat
  end.

(** [sum(d.values())] *)
Definition sum_values {K} (d : dict K Z) : Z := foldr Z.add 0 (dict_values d).

(** [self.codes[char]] for each character of the text, joined. *)
Definition join_codes (codes : dict ascii str) (text : str) : str :=
  concat (map (fun char => default [] (dict_get char codes)) text).

(** An encoder whose code table covers ["a"] and ["b"], with stale heap
    content that [get_encoded_text] must not touch. *)
Definition sample_encoder : HuffmanEncoder :=
  mkHuffmanEncoder [new_Node (Some "z"%char) 7]
    [("a"%char, py "0"); ("b"%char, py "10")] [] 3.

(** The child that [_siftup] moves up: the right one when it exists and the
    left one is not smaller. *)
Definition smaller_child (h : list Node) (endpos pos : nat) : nat :=
  if ((2 * pos + 1) + 1 <? endpos)%nat
     && negb (Node_lt (h !!! (2 * pos + 1)%nat) (h !!! ((2 * pos + 1) + 1)%nat))
  then ((2 * pos + 1) + 1)%nat else (2 * pos + 1)%nat.

(** The invariant of [heapq]: no element is smaller than its parent. *)
Definition heap_ok (h : list Node) : Prop :=
  forall i, (0 < i < length h)%nat ->
    freq (h !!! ((i - 1) / 2)%nat) <= freq (h !!! i).

(** Inside [_siftdown]: the order holds everywhere except between [pos] and
    its parent, the children of [pos] are not smaller than its parent, and the
    travelling item is not larger than what is stored at [pos]. *)
Definition siftdown_inv (h : list Node) (pos : nat) (x : Node) : Prop :=
  (pos < length h)%nat
  /\ (forall i, (0 < i < length h)%nat -> i <> pos ->
        freq (h !!! ((i - 1) / 2)%nat) <= freq (h !!! i))
  /\ (forall i, (0 < i < length h)%nat -> (0 < pos)%nat -> ((i - 1) / 2)%nat = pos ->
        freq (h !!! ((pos - 1) / 2)%nat) <= freq (h !!! i))
  /\ freq x <= freq (h !!! pos).

(** Inside [_siftup]: the order holds everywhere except between [pos] and
    its children, which are not smaller than the parent of [pos]. *)
Definition siftup_inv (h : list Node) (pos : nat) : Prop :=
  (pos < length h)%nat
  /\ (forall i, (0 < i < length h)%nat -> ((i - 1) / 2)%nat <> pos ->
        freq (h !!! ((i - 1) / 2)%nat) <= freq (h !!! i))
  /\ (forall i, (0 < i < length h)%nat -> (0 < pos)%nat -> ((i - 1) / 2)%nat = pos ->
        freq (h !!! ((pos - 1) / 2)%nat) <= freq (h !!! i)).

(** The shape of the trees that [merge_nodes] builds: a node with a character
    has no children, a node without one has both children and the sum of
    their frequencies. *)
Fixpoint strictly_binary (node : Node) : bool :=
  match node with
  | mkNode (Some _) _ None None => true
  | mkNode None f (Some l) (Some r) =>
      (f =? freq l + freq r) && strictly_binary l && strictly_binary r
  | _ => false
  end.

(** The characters at the leaves, left to right, as [make_codes_helper]
    meets them. *)
Fixpoint leaf_chars (node : Node) : list ascii :=
  match node with
  | mkNode (Some c) _ _ _ => [c]
  | mkNode None _ l r =>
      match l with Some n => leaf_chars n | None => [] end
      ++ match r with Some n => leaf_chars n | None => [] end
  end.

(** The number of nodes without a character. *)
Fixpoint internal_nodes (node : Node) : nat :=
  match node with
  | mkNode (Some _) _ _ _ => 0%nat
  | mkNode None _ l r =>
      (1 + match l with Some n => internal_nodes n | None => 0 end
         + match r with Some n => internal_nodes n | None => 0 end)%nat
  end.

(** What holds of [self.heap] between the calls of the pipeline. *)
Definition heap_inv (h : list Node) : Prop :=
  heap_ok h /\ Forall (fun n => strictly_binary n = true) h.

(** The node that one pass of [merge_nodes] creates. *)
Definition merged_node (node1 node2 : Node) : Node :=
  mkNode None (freq node1 + freq node2) (Some node1) (Some node2).

(** One pass of the loop of [merge_nodes] on a heap of two or more nodes. *)
Definition merge_pass (h : list Node) : Prop :=
  exists node1 h1 node2 h2,
    heappop h = Ok (node1, h1)
    /\ heappop h1 = Ok (node2, h2)
    /\ h ≡ₚ node1 :: h1
    /\ Forall (fun y => freq node1 <= freq y) h
    /\ h1 ≡ₚ node2 :: h2
    /\ Forall (fun y => freq node2 <= freq y) h1
    /\ merge_body h = (heappush h2 (merged_node node1 node2), Ok tt)
    /\ heap_inv (heappush h2 (merged_node node1 node2))
    /\ length (heappush h2 (merged_node node1 node2)) = (length h - 1)%nat
    /\ flat_map leaf_chars (heappush h2 (merged_node node1 node2))
         ≡ₚ flat_map leaf_chars h.

(** [leaf_at node path c]: walking [path] from [node] (["0"] to the left,
    ["1"] to the right) stops at a node with character [c], having passed
    only nodes without character. *)
Inductive leaf_at : Node -> str -> ascii -> Prop :=
  | leaf_here c f l r : leaf_at (mkNode (Some c) f l r) [] c
  | leaf_left f l r path c :
      leaf_at l path c -> leaf_at (mkNode None f (Some l) r) ("0"%char :: path) c
  | leaf_right f l r path c :
      leaf_at r path c -> leaf_at (mkNode None f l (Some r)) ("1"%char :: path) c.

(** A string of binary digits. *)
Definition binary (s : str) : Prop :=
  Forall (fun c => c = "0"%char \/ c = "1"%char) s.

(** No code of the table is a prefix of the code of another symbol. *)
Definition prefix_free (codes : dict ascii str) : Prop :=
  forall a b code_a code_b,
    a <> b -> dict_get a codes = Some code_a -> dict_get b codes = Some code_b ->
    ~ code_a `prefix_of` code_b /\ ~ code_b `prefix_of` code_a.

(** The first four calls of [compress]. *)
Definition build_codes (text : str) : M unit :=
  freq_dict <- make_frequency_dict text ;;
  _ <- make_heap freq_dict ;;
  _ <- merge_nodes ;;
  make_codes.

(** The calls of [compress] after [make_codes]. *)
Definition pack (text : str) : M (list Z) :=
  encoded_text <- get_encoded_text text ;;
  r <- pad_encoded_text encoded_text ;;
  let '(padded_text, padding) := r in
  final_bytes <- lift (pack_bytes padded_text) ;;
  header <- lift (byte_value padding) ;;
  ret (header :: final_bytes).

(** The encoder after [make_codes] took [root] off a one-node heap. *)
Definition after_codes (root : Node) (self : HuffmanEncoder) : HuffmanEncoder :=
  set_tables (codes_of_node root [] (codes self, reverse_codes self))
    (set_heap [] self).

(** The calls of [compress] after [get_encoded_text]. *)
Definition pack_encoded (encoded_text : str) : M (list Z) :=
  r <- pad_encoded_text encoded_text ;;
  let '(padded_text, padding) := r in
  final_bytes <- lift (pack_bytes padded_text) ;;
  header <- lift (byte_value padding) ;;
  ret (header :: final_bytes).

(** The encoder after [compress] has run on each of the texts in turn. *)
Definition after_calls (texts : list str) : HuffmanEncoder :=
  fold_left (fun self text => (compress_text text self).1) texts new_HuffmanEncoder.

(** [self.heap] after [make_heap(make_frequency_dict(text))] on a new
    encoder. *)
Definition loaded_heap (text : str) : list Node :=
  fold_left push_item (frequency_dict text) [].

(** The node that [merge_nodes] then leaves at the front of the heap. *)
Definition huffman_root (text : str) : Node :=
  (merge_loop (length (loaded_heap text)) (loaded_heap text)).1 !!! 0%nat.

(** The number of distinct symbols of a text: [len(make_frequency_dict(text))]. *)
Definition distinct_symbols (text : str) : nat := length (frequency_dict text).

(** [sum(node.freq for node in heap)] *)
Definition sum_freq (h : list Node) : Z := foldr Z.add 0 (map freq h).

(** The nodes without character in all the trees of a heap. *)
Definition count_internal (h : list Node) : nat := sum_list_with internal_nodes h.

(** [sum(freq * len(codes[char]) for char, freq in freq_dict.items())] *)
Definition weighted_length (freq_dict : dict ascii Z) (codes : dict ascii str) : Z :=
  foldr (fun item acc =>
           item.2 * Z.of_nat (length (default [] (dict_get item.1 codes))) + acc)
    0 freq_dict.

(** [format(byte, '08b')]: the eight binary digits of a byte, the most
    significant first. *)
Definition bits8 (byte : Z) : str :=
  map (fun i => if Z.testbit byte i then "1"%char else "0"%char) [7; 6; 5; 4; 3; 2; 1; 0].

(** Reading an output back: the digits of the bytes after the header,
    without the last [header] ones. *)
Definition unpack (content : list Z) : str :=
  match content with
  | [] => []
  | header :: final_bytes =>
      let bits := concat (map bits8 final_bytes) in
      take (length bits - Z.to_nat header) bits
  end.

(** The entries that [make_codes_helper] writes for a tree, in its order. *)
Fixpoint leaf_entries (node : Node) (current_code : str) : list (ascii * str) :=
  match node with
  | mkNode (Some c) _ _ _ => [(c, current_code)]
  | mkNode None _ l r =>
      match l with Some n => leaf_entries n (current_code ++ py "0") | None => [] end
      ++ match r with Some n => leaf_entries n (current_code ++ py "1") | None => [] end
  end.

(** [sum(2 ** (depth - len(code)) for code in codes.values())] *)
Definition kraft_sum (depth : nat) (codes : dict ascii str) : Z :=
  foldr (fun item acc => 2 ^ Z.of_nat (depth - length item.2) + acc) 0 codes.

(** * Properties *)

(** ** Dictionaries *)

Section DictFacts.
Context {K V : Type} `{EqDecision K}.
Implicit Types (d : dict K V) (k : K) (v : V).

Lemma dict_get_set_eq k v d : dict_get k (dict_set k v d) = Some v.
Proof.
  induction d as [|[k' v'] d IH]; simpl.
  - by rewrite decide_True.
  - destruct (decide (k = k')) as [->|Hne]; simpl.
    + by rewrite decide_True.
    + by rewrite decide_False.
Qed.

Lemma dict_get_set_ne k k' v d :
  k <> k' -> dict_get k (dict_set k' v d) = dict_get k d.
Proof.
  intros Hne. induction d as [|[k0 v0] d IH]; simpl.
  - by rewrite decide_False.
  - destruct (decide (k' = k0)) as [->|Hne0]; simpl.
    + by rewrite !decide_False.
    + destruct (decide (k = k0)); [done|apply IH].
Qed.

Lemma dict_get_set k k' v d :
  dict_get k (dict_set k' v d) = if decide (k = k') then Some v else dict_get k d.
Proof.
  destruct (decide (k = k')) as [->|Hne].
  - apply dict_get_set_eq.
  - by apply dict_get_set_ne.
Qed.

Lemma dict_get_None k d : dict_get k d = None <-> k ∉ dict_keys d.
Proof.
  induction d as [|[k' v'] d IH]; simpl.
  - split; [intros _; apply not_elem_of_nil|done].
  - rewrite not_elem_of_cons. destruct (decide (k = k')) as [->|Hne]; simpl.
    + split; [done|intros [? _]; done].
    + rewrite IH. tauto.
Qed.

Lemma dict_get_Some_elem k v d : dict_get k d = Some v -> (k, v) ∈ d.
Proof.
  induction d as [|[k' v'] d IH]; simpl; [done|].
  destruct (decide (k = k')) as [->|Hne].
  - intros [= ->]. apply list_elem_of_here.
  - intros Hg. apply list_elem_of_further. by apply IH.
Qed.

Lemma dict_keys_set_new k v d :
  dict_get k d = None -> dict_set k v d = d ++ [(k, v)].
Proof.
  induction d as [|[k' v'] d IH]; simpl; [done|].
  destruct (decide (k = k')); [done|]. intros Hg. by rewrite IH.
Qed.

Lemma dict_keys_set_old k v d :
  dict_get k d <> None -> dict_keys (dict_set k v d) = dict_keys d.
Proof.
  induction d as [|[k' v'] d IH]; simpl; [done|].
  destruct (decide (k = k')); simpl; [done|]. intros Hg. by rewrite IH.
Qed.

Lemma dict_keys_set k v d :
  dict_keys (dict_set k v d)
  = if decide (dict_get k d = None) then dict_keys d ++ [k] else dict_keys d.
Proof.
  destruct (decide (dict_get k d = None)) as [Hn|Hs].
  - rewrite dict_keys_set_new by done. unfold dict_keys. by rewrite map_app.
  - by apply dict_keys_set_old.
Qed.

Lemma dict_set_NoDup k v d : NoDup (dict_keys d) -> NoDup (dict_keys (dict_set k v d)).
Proof.
  intros Hnd. rewrite dict_keys_set.
  destruct (decide (dict_get k d = None)) as [Hn|Hs]; [|done].
  apply NoDup_app. split; [done|]. split; [|apply NoDup_singleton].
  intros x Hx Hx'. apply list_elem_of_singleton in Hx' as ->.
  by apply dict_get_None in Hn.
Qed.
End DictFacts.

(** ** make_frequency_dict *)

Lemma occurrences_app c t1 t2 :
  occurrences c (t1 ++ t2) = (occurrences c t1 + occurrences c t2)%nat.
Proof. induction t1 as [|x t1 IH]; simpl; [done|]. rewrite IH. lia. Qed.

Lemma occurrences_zero c text : occurrences c text = 0%nat <-> c ∉ text.
Proof.
  induction text as [|x text IH]; simpl.
  - split; [intros _; apply not_elem_of_nil|done].
  - rewrite not_elem_of_cons. destruct (decide (x = c)) as [->|Hne].
    + split; [lia|intros [? _]; done].
    + simpl. rewrite IH. split; [intros ?; split; [congruence|done]|tauto].
Qed.

Lemma sum_values_set `{EqDecision K} (k : K) v (d : dict K Z) :
  sum_values (dict_set k v d) = sum_values d - default 0 (dict_get k d) + v.
Proof.
  unfold sum_values. induction d as [|[k' v'] d IH]; simpl; [lia|].
  destruct (decide (k = k')); simpl; [lia|]. rewrite IH. lia.
Qed.

Lemma dict_values_set_Forall `{EqDecision K} {V} (P : V -> Prop) (k : K) v
    (d : dict K V) :
  P v -> Forall P (dict_values d) -> Forall P (dict_values (dict_set k v d)).
Proof.
  intros Hv. unfold dict_values.
  induction d as [|[k' v'] d IH]; simpl; intros Hd.
  - by constructor.
  - inversion Hd; subst. destruct (decide (k = k')); simpl; constructor; auto.
Qed.

Lemma dict_get_Forall `{EqDecision K} {V} (P : V -> Prop) (k : K) v
    (d : dict K V) :
  Forall P (dict_values d) -> dict_get k d = Some v -> P v.
Proof.
  unfold dict_values. induction d as [|[k' v'] d IH]; simpl; [done|].
  intros Hd. inversion Hd; subst. destruct (decide (k = k')); [congruence|auto].
Qed.

(** What one pass of the counting loop does to the table. *)
Lemma count_char_get c x d :
  dict_get c (count_char d x)
  = if decide (c = x) then Some (default 0 (dict_get c d) + 1) else dict_get c d.
Proof.
  unfold count_char. rewrite dict_get_set.
  by destruct (decide (c = x)) as [->|].
Qed.

Lemma count_char_sum x d : sum_values (count_char d x) = sum_values d + 1.
Proof. unfold count_char. rewrite sum_values_set. lia. Qed.

Lemma count_char_ge1 x d :
  Forall (fun v => 1 <= v) (dict_values d) ->
  Forall (fun v => 1 <= v) (dict_values (count_char d x)).
Proof.
  intros Hd. unfold count_char. apply dict_values_set_Forall; [|done].
  destruct (dict_get x d) as [v|] eqn:Hg; simpl; [|lia].
  pose proof (dict_get_Forall _ _ _ _ Hd Hg). simpl in *. lia.
Qed.

(** The loop invariant of [make_frequency_dict], from any starting table. *)
Lemma count_loop_spec text d :
  let d' := fold_left count_char text d in
  (forall c, dict_get c d'
     = if decide (occurrences c text = 0%nat) then dict_get c d
       else Some (default 0 (dict_get c d) + Z.of_nat (occurrences c text)))
  /\ sum_values d' = sum_values d + Z.of_nat (length text)
  /\ (Forall (fun v => 1 <= v) (dict_values d) ->
      Forall (fun v => 1 <= v) (dict_values d'))
  /\ (NoDup (dict_keys d) -> NoDup (dict_keys d')).
Proof.
  revert d. induction text as [|x text IH]; intros d; simpl.
  - repeat split; try done. lia.
  - destruct (IH (count_char d x)) as (Hget & Hsum & Hge & Hnd).
    repeat split.
    + intros c. rewrite Hget, !count_char_get.
      destruct (decide (c = x)) as [->|Hne].
      * rewrite (decide_True (P := x = x)) by done.
        destruct (decide (occurrences x text = 0%nat)) as [Hz|Hz]; simpl.
        -- f_equal. lia.
        -- f_equal. lia.
      * rewrite (decide_False (P := x = c)) by congruence. done.
    + rewrite Hsum, count_char_sum. lia.
    + intros Hd. by apply Hge, count_char_ge1.
    + intros Hd. apply Hnd. unfold count_char. by apply dict_set_NoDup.
Qed.

Lemma frequency_dict_get text c :
  dict_get c (frequency_dict text)
  = if decide (c ∈ text) then Some (Z.of_nat (occurrences c text)) else None.
Proof.
  destruct (count_loop_spec text []) as (Hget & _).
  unfold frequency_dict. rewrite Hget. simpl.
  destruct (decide (c ∈ text)) as [Hin|Hout].
  - rewrite decide_False; [done|].
    intros Hz. by apply occurrences_zero in Hz.
  - rewrite decide_True; [done|]. by apply occurrences_zero.
Qed.

Lemma frequency_dict_keys text c : c ∈ dict_keys (frequency_dict text) <-> c ∈ text.
Proof.
  pose proof (frequency_dict_get text c) as Hget.
  pose proof (dict_get_None c (frequency_dict text)) as Hnone.
  destruct (decide (c ∈ text)) as [Hin|Hout].
  - split; [done|]. intros _.
    destruct (decide (c ∈ dict_keys (frequency_dict text))) as [|Hn]; [done|].
    apply Hnone in Hn. congruence.
  - split; [|done]. intros Hk. by apply Hnone in Hget.
Qed.

Lemma frequency_dict_NoDup text : NoDup (dict_keys (frequency_dict text)).
Proof.
  destruct (count_loop_spec text []) as (_ & _ & _ & Hnd).
  apply Hnd. constructor.
Qed.

Lemma frequency_dict_nonempty text : text <> [] -> frequency_dict text <> [].
Proof.
  destruct text as [|c text]; [done|]. intros _ Hnil.
  pose proof (frequency_dict_get (c :: text) c) as Hget. rewrite Hnil in Hget.
  rewrite decide_True in Hget by apply list_elem_of_here. done.
Qed.

(** C2. [make_frequency_dict] leaves the encoder as it was and returns a
    table with one entry per distinct symbol of the text: the entry of a
    symbol is the number of its occurrences, a symbol that does not occur has
    no entry, every stored count is at least 1, the counts add up to the
    length of the text, and the table of the empty text is empty. *)
Theorem make_frequency_dict_spec (text : str) (self : HuffmanEncoder) :
  exists freq_dict,
    make_frequency_dict text self = (self, Ok freq_dict)
    /\ sum_values freq_dict = Z.of_nat (length text)
    /\ (forall c, dict_get c freq_dict
          = if decide (c ∈ text) then Some (Z.of_nat (occurrences c text))
            else None)
    /\ Forall (fun v => 1 <= v) (dict_values freq_dict)
    /\ NoDup (dict_keys freq_dict)
    /\ make_frequency_dict [] self = (self, Ok []).
Proof.
  exists (frequency_dict text). split; [done|].
  destruct (count_loop_spec text []) as (_ & Hsum & Hge & _).
  repeat split.
  - unfold frequency_dict. rewrite Hsum. unfold sum_values. simpl. lia.
  - apply frequency_dict_get.
  - apply Hge. constructor.
  - apply frequency_dict_NoDup.
Qed.

(** ** pad_encoded_text *)

Lemma pad_encoded_text_facts (encoded_text : str) :
  let padding := 8 - Z.of_nat (length encoded_text) mod 8 in
  let padded_text := encoded_text ++ replicate (Z.to_nat padding) "0"%char in
  1 <= padding <= 8
  /\ (padding = 8 <-> Z.of_nat (length encoded_text) mod 8 = 0)
  /\ length padded_text = (length encoded_text + Z.to_nat padding)%nat
  /\ Z.of_nat (length padded_text) mod 8 = 0.
Proof.
  intros padding padded_text. subst padding padded_text.
  pose proof (Z.mod_pos_bound (Z.of_nat (length encoded_text)) 8 ltac:(lia)) as Hm.
  repeat split; try lia.
  - by rewrite length_app, length_replicate.
  - rewrite length_app, length_replicate, Nat2Z.inj_add, Z2Nat.id by lia.
    set (n := Z.of_nat (length encoded_text)) in *.
    replace (n + (8 - n `mod` 8)) with ((n / 8 + 1) * 8).
    + apply Z_mod_mult.
    + pose proof (Z.div_mod n 8 ltac:(lia)). lia.
Qed.

(** C4. [pad_encoded_text] computes [padding = 8 - len mod 8], which lies
    between 1 and 8 and is 8 exactly when the length is a multiple of 8,
    appends that many ["0"] characters, stores the padding in the encoder, and
    returns a string whose length is a multiple of 8 and that starts with the
    original bit string. *)
Theorem pad_encoded_text_spec (encoded_text : str) (self : HuffmanEncoder) :
  let padding := 8 - Z.of_nat (length encoded_text) mod 8 in
  let padded_text := encoded_text ++ replicate (Z.to_nat padding) "0"%char in
  pad_encoded_text encoded_text self
    = (set_padding padding self, Ok (padded_text, padding))
  /\ 1 <= padding <= 8
  /\ (padding = 8 <-> Z.of_nat (length encoded_text) mod 8 = 0)
  /\ length padded_text = (length encoded_text + Z.to_nat padding)%nat
  /\ Z.of_nat (length padded_text) mod 8 = 0
  /\ encoded_text `prefix_of` padded_text.
Proof.
  intros padding padded_text.
  destruct (pad_encoded_text_facts encoded_text) as (Hp & H8 & Hlen & Hmod).
  repeat split; try done; try apply H8; try apply Hp.
  by apply prefix_app_r.
Qed.

(** ** get_encoded_text *)

Lemma encode_loop_covered codes text acc :
  Forall (fun c => is_Some (dict_get c codes)) text ->
  encode_loop codes text acc = Ok (acc ++ join_codes codes text).
Proof.
  revert acc. induction text as [|c text IH]; intros acc Hall; simpl.
  - unfold join_codes. simpl. by rewrite app_nil_r.
  - inversion Hall as [|? ? [code Hc] Hall']; subst. rewrite Hc.
    rewrite IH by done. unfold join_codes. simpl. rewrite Hc. simpl.
    by rewrite app_assoc.
Qed.

Lemma encode_loop_missing codes text acc :
  Exists (fun c => dict_get c codes = None) text ->
  exists k, k ∈ text /\ dict_get k codes = None
            /\ encode_loop codes text acc = Raise (KeyError k).
Proof.
  revert acc. induction text as [|c text IH]; intros acc Hex; simpl.
  - inversion Hex.
  - destruct (dict_get c codes) as [code|] eqn:Hc.
    + inversion Hex as [? ? Hn|? ? Hex']; subst; [congruence|].
      destruct (IH (acc ++ code) Hex') as (k & Hk & Hn & He).
      exists k. split; [by apply list_elem_of_further|done].
    + exists c. split; [apply list_elem_of_here|done].
Qed.

(** C10. [get_encoded_text] never changes the encoder. On a text with a
    character that has no entry in [self.codes] it raises [KeyError] (for
    such a character); on a text whose characters all have an entry it returns
    their codes joined in the order of the text. *)
Theorem get_encoded_text_spec (text : str) (self : HuffmanEncoder) :
  fst (get_encoded_text text self) = self
  /\ (Exists (fun c => dict_get c (codes self) = None) text ->
      exists k, k ∈ text /\ dict_get k (codes self) = None
        /\ snd (get_encoded_text text self) = Raise (KeyError k))
  /\ (Forall (fun c => is_Some (dict_get c (codes self))) text ->
      snd (get_encoded_text text self) = Ok (join_codes (codes self) text)).
Proof.
  split; [done|]. split; intros H; simpl.
  - by apply encode_loop_missing.
  - by rewrite encode_loop_covered.
Qed.

Lemma get_encoded_text_spec_witness :
  (exists k, k ∈ py "abc" /\ dict_get k (codes sample_encoder) = None
     /\ snd (get_encoded_text (py "abc") sample_encoder) = Raise (KeyError k))
  /\ snd (get_encoded_text (py "abba") sample_encoder) = Ok (py "010100").
Proof.
  split.
  - apply (proj1 (proj2 (get_encoded_text_spec (py "abc") sample_encoder))).
    apply Exists_cons_tl, Exists_cons_tl, Exists_cons_hd. reflexivity.
  - apply (proj2 (proj2 (get_encoded_text_spec (py "abba") sample_encoder))).
    repeat constructor; eexists; reflexivity.
Defined.

(** ** heapq: sizes and contents *)

Lemma shiftr_1 (n : nat) : Nat.shiftr n 1 = (n / 2)%nat.
Proof. rewrite Nat.shiftr_div_pow2. done. Qed.

(** The loops, unfolded once. *)
Lemma siftdown_loop_S fuel h startpos pos x :
  siftdown_loop (S fuel) h startpos pos x
  = if (startpos <? pos)%nat then
      if Node_lt x (h !!! ((pos - 1) / 2)%nat) then
        siftdown_loop fuel (<[pos := h !!! ((pos - 1) / 2)%nat]> h) startpos
          ((pos - 1) / 2)%nat x
      else <[pos := x]> h
    else <[pos := x]> h.
Proof. cbn [siftdown_loop]. by rewrite shiftr_1. Qed.

Lemma siftup_loop_S fuel h endpos pos :
  siftup_loop (S fuel) h endpos pos
  = if (2 * pos + 1 <? endpos)%nat then
      siftup_loop fuel (<[pos := h !!! smaller_child h endpos pos]> h) endpos
        (smaller_child h endpos pos)
    else (h, pos).
Proof. reflexivity. Qed.

Lemma smaller_child_cases h endpos pos :
  (2 * pos + 1 < endpos)%nat ->
  (smaller_child h endpos pos = 2 * pos + 1
   \/ smaller_child h endpos pos = 2 * pos + 2)%nat
  /\ (smaller_child h endpos pos < endpos)%nat
  /\ freq (h !!! smaller_child h endpos pos) <= freq (h !!! (2 * pos + 1)%nat)
  /\ ((2 * pos + 2 < endpos)%nat ->
      freq (h !!! smaller_child h endpos pos) <= freq (h !!! (2 * pos + 2)%nat)).
Proof.
  intros Hc. unfold smaller_child, Node_lt.
  replace (2 * pos + 1 + 1)%nat with (2 * pos + 2)%nat by lia.
  destruct (Nat.ltb_spec (2 * pos + 2) endpos) as [Hr|Hr]; cbn [andb].
  - destruct (Z.ltb_spec (freq (h !!! (2 * pos + 1)%nat))
                (freq (h !!! (2 * pos + 2)%nat))); cbn [negb];
      repeat split; try lia; auto.
  - repeat split; try lia; auto.
Qed.

Lemma siftdown_loop_length fuel h startpos pos x :
  length (siftdown_loop fuel h startpos pos x) = length h.
Proof.
  revert h pos. induction fuel as [|fuel IH]; intros h pos; simpl.
  - by rewrite length_insert.
  - destruct (startpos <? pos)%nat; [|by rewrite length_insert].
    destruct (Node_lt _ _); [|by rewrite length_insert].
    by rewrite IH, length_insert.
Qed.

Lemma siftup_loop_length fuel h endpos pos :
  length (siftup_loop fuel h endpos pos).1 = length h.
Proof.
  revert h pos. induction fuel as [|fuel IH]; intros h pos; simpl; [done|].
  destruct (2 * pos + 1 <? endpos)%nat eqn:Hc; simpl in *; rewrite ?Hc; [|done].
  by rewrite IH, length_insert.
Qed.

Lemma _siftdown_length h startpos pos :
  length (_siftdown h startpos pos) = length h.
Proof. apply siftdown_loop_length. Qed.

Lemma _siftup_length h pos : length (_siftup h pos) = length h.
Proof.
  unfold _siftup.
  pose proof (siftup_loop_length (length h) h (length h) pos) as Hl.
  destruct (siftup_loop _ _ _ _) as [h' pos']; simpl in *.
  by rewrite _siftdown_length, length_insert.
Qed.

Lemma heappush_length h x : length (heappush h x) = S (length h).
Proof.
  unfold heappush. rewrite _siftdown_length, length_app. simpl. lia.
Qed.

(** Writing [x] at [j] after copying the element at [j] to [i] keeps the
    elements of the list with [x] written at [i]. *)
Lemma insert_head_Permutation (l : list Node) j x :
  (j < length l)%nat -> (l !!! j) :: <[j := x]> l ≡ₚ x :: l.
Proof.
  revert j. induction l as [|a l IH]; intros j Hj; simpl in *; [lia|].
  destruct j as [|j]; simpl.
  - apply perm_swap.
  - rewrite perm_swap. change ((a :: l) !!! S j) with (l !!! j).
    rewrite (IH j) by lia. apply perm_swap.
Qed.

Lemma insert_move_Permutation (l : list Node) i j x :
  (i < length l)%nat -> (j < length l)%nat -> i <> j ->
  <[j := x]> (<[i := l !!! j]> l) ≡ₚ <[i := x]> l.
Proof.
  revert i j. induction l as [|a l IH]; intros i j Hi Hj Hne; simpl in *; [lia|].
  destruct i as [|i], j as [|j]; simpl; try done.
  - change ((a :: l) !!! S j) with (l !!! j).
    apply insert_head_Permutation. lia.
  - change ((a :: l) !!! 0%nat) with a.
    apply (Permutation_cons_inv (a := l !!! i)).
    rewrite perm_swap, (insert_head_Permutation l i a) by lia.
    rewrite (perm_swap a (l !!! i)), (insert_head_Permutation l i x) by lia.
    apply perm_swap.
  - change ((a :: l) !!! S j) with (l !!! j).
    apply perm_skip, IH; lia.
Qed.

Lemma insert_same (l : list Node) i : <[i := l !!! i]> l = l.
Proof.
  destruct (decide (i < length l)%nat) as [Hi|Hi].
  - apply list_insert_id. by apply list_lookup_lookup_total_lt.
  - apply list_insert_ge. lia.
Qed.

Lemma siftdown_loop_Permutation fuel h startpos pos x :
  (pos < length h)%nat ->
  siftdown_loop fuel h startpos pos x ≡ₚ <[pos := x]> h.
Proof.
  revert h pos. induction fuel as [|fuel IH]; intros h pos Hpos; [done|].
  rewrite siftdown_loop_S.
  destruct (startpos <? pos)%nat eqn:H0; [|done].
  apply Nat.ltb_lt in H0.
  destruct (Node_lt _ _); [|done].
  assert ((pos - 1) / 2 < pos)%nat as Hpp.
  { apply Nat.Div0.div_lt_upper_bound. lia. }
  rewrite IH by (rewrite length_insert; lia).
  apply insert_move_Permutation; lia.
Qed.

Lemma _siftdown_Permutation h startpos pos :
  (pos < length h)%nat -> _siftdown h startpos pos ≡ₚ h.
Proof.
  intros Hpos. unfold _siftdown.
  rewrite siftdown_loop_Permutation by done. by rewrite insert_same.
Qed.

Lemma siftup_loop_Permutation fuel h pos x :
  (pos < length h)%nat ->
  let '(h', pos') := siftup_loop fuel h (length h) pos in
  (pos' < length h')%nat /\ <[pos' := x]> h' ≡ₚ <[pos := x]> h.
Proof.
  revert h pos. induction fuel as [|fuel IH]; intros h pos Hpos; [done|].
  rewrite siftup_loop_S.
  destruct (2 * pos + 1 <? length h)%nat eqn:Hc; [|done].
  apply Nat.ltb_lt in Hc.
  destruct (smaller_child_cases h (length h) pos Hc) as (Hcc & Hcl & _).
  specialize (IH (<[pos := h !!! smaller_child h (length h) pos]> h)
                 (smaller_child h (length h) pos)).
  rewrite length_insert in IH. specialize (IH Hcl).
  destruct (siftup_loop _ _ _ _) as [h' pos']. destruct IH as [Hl IH].
  split; [done|]. rewrite IH.
  apply insert_move_Permutation; lia.
Qed.

Lemma _siftup_Permutation h pos :
  (pos < length h)%nat -> _siftup h pos ≡ₚ h.
Proof.
  intros Hpos. unfold _siftup.
  pose proof (siftup_loop_Permutation (length h) h pos (h !!! pos) Hpos) as Hp.
  destruct (siftup_loop _ _ _ _) as [h' pos']. destruct Hp as [Hl Hp].
  unfold _siftdown. rewrite list_lookup_total_insert_eq by done.
  rewrite siftdown_loop_Permutation by (rewrite length_insert; done).
  rewrite list_insert_insert_eq, Hp. by rewrite insert_same.
Qed.

Lemma heappush_Permutation h x : heappush h x ≡ₚ x :: h.
Proof.
  unfold heappush. rewrite _siftdown_Permutation.
  - by rewrite Permutation_app_comm.
  - rewrite length_app. simpl. lia.
Qed.

Lemma list_pop_spec {A} (l : list A) :
  match list_pop l with
  | Ok (x, l') => l = l' ++ [x]
  | Raise e => l = [] /\ e = IndexError
  end.
Proof.
  unfold list_pop. destruct l as [|a l] using rev_ind; [done|].
  rewrite last_snoc, removelast_last. done.
Qed.

Lemma heappop_nil : heappop [] = Raise IndexError.
Proof. reflexivity. Qed.

(** [heappop] raises only on the empty heap; otherwise it hands out one
    element and keeps the others. *)
Lemma heappop_Permutation h :
  h <> [] ->
  exists x h', heappop h = Ok (x, h') /\ h ≡ₚ x :: h'
               /\ length h = S (length h').
Proof.
  intros Hne. unfold heappop. pose proof (list_pop_spec h) as Hp.
  destruct (list_pop h) as [[lastelt h0]|e]; [|by destruct Hp].
  subst h. destruct h0 as [|a t].
  - exists lastelt, []. done.
  - eexists _, _. split; [done|]. split.
    + rewrite _siftup_Permutation by (simpl; lia).
      change ((a :: t) !!! 0%nat) with a.
      change (<[0%nat := lastelt]> (a :: t)) with (lastelt :: t).
      change ((a :: t) ++ [lastelt]) with (a :: (t ++ [lastelt])).
      by rewrite <- Permutation_cons_append.
    + rewrite _siftup_length. simpl. rewrite length_app. simpl. lia.
Qed.

(** ** heapq: the heap order *)

Lemma siftdown_inv_exit h pos x :
  siftdown_inv h pos x ->
  (pos = 0%nat \/ freq (h !!! ((pos - 1) / 2)%nat) <= freq x) ->
  heap_ok (<[pos := x]> h).
Proof.
  intros (Hpos & HA & HB & HC) Hexit i Hi. rewrite length_insert in Hi.
  destruct (decide (i = pos)) as [->|Hne].
  - rewrite list_lookup_total_insert_eq by done.
    rewrite list_lookup_total_insert_ne by lia.
    destruct Hexit; lia.
  - rewrite (list_lookup_total_insert_ne _ pos i) by done.
    destruct (decide (((i - 1) / 2)%nat = pos)) as [Hp|Hp].
    + rewrite Hp, list_lookup_total_insert_eq by done.
      specialize (HA i Hi Hne). rewrite Hp in HA. lia.
    + rewrite list_lookup_total_insert_ne by done. by apply HA.
Qed.

Lemma siftdown_inv_step h pos x :
  siftdown_inv h pos x -> (0 < pos)%nat ->
  freq x < freq (h !!! ((pos - 1) / 2)%nat) ->
  siftdown_inv (<[pos := h !!! ((pos - 1) / 2)%nat]> h) ((pos - 1) / 2)%nat x.
Proof.
  intros (Hpos & HA & HB & HC) H0 Hlt.
  set (pp := ((pos - 1) / 2)%nat) in *.
  assert (pp < pos)%nat as Hpp by (subst pp; lia).
  unfold siftdown_inv. rewrite length_insert.
  split; [lia|]. split; [|split].
  - intros i Hi Hne. destruct (decide (i = pos)) as [->|Hne'].
    + rewrite list_lookup_total_insert_eq by done.
      fold pp. rewrite list_lookup_total_insert_ne by lia. lia.
    + rewrite (list_lookup_total_insert_ne _ pos i) by done.
      destruct (decide (((i - 1) / 2)%nat = pos)) as [Hp|Hp].
      * rewrite Hp, list_lookup_total_insert_eq by done. by apply HB.
      * rewrite list_lookup_total_insert_ne by done. by apply HA.
  - intros i Hi Hpp0 Hp.
    rewrite (list_lookup_total_insert_ne _ pos ((pp - 1) / 2)%nat) by lia.
    destruct (decide (i = pos)) as [->|Hne'].
    + rewrite list_lookup_total_insert_eq by done. apply HA; lia.
    + rewrite list_lookup_total_insert_ne by done.
      pose proof (HA pp ltac:(lia) ltac:(lia)).
      pose proof (HA i Hi Hne') as Hi'. rewrite Hp in Hi'. lia.
  - rewrite list_lookup_total_insert_ne by lia. lia.
Qed.

Lemma siftdown_loop_ok fuel h pos x :
  (pos <= fuel)%nat -> siftdown_inv h pos x ->
  heap_ok (siftdown_loop fuel h 0 pos x).
Proof.
  revert h pos. induction fuel as [|fuel IH]; intros h pos Hfuel Hinv.
  - apply siftdown_inv_exit; [done|]. left. lia.
  - rewrite siftdown_loop_S. destruct (Nat.ltb_spec 0 pos) as [H0|H0].
    + unfold Node_lt.
      destruct (Z.ltb_spec (freq x) (freq (h !!! ((pos - 1) / 2)%nat))) as [Hlt|Hge].
      * apply IH; [lia|]. by apply siftdown_inv_step.
      * apply siftdown_inv_exit; [done|]. by right.
    + apply siftdown_inv_exit; [done|]. left. lia.
Qed.

Lemma siftup_inv_step h pos :
  siftup_inv h pos -> (2 * pos + 1 < length h)%nat ->
  siftup_inv (<[pos := h !!! smaller_child h (length h) pos]> h)
    (smaller_child h (length h) pos).
Proof.
  intros (Hpos & HA & HB) Hc.
  destruct (smaller_child_cases h (length h) pos Hc) as (Hcc & Hcl & Hle1 & Hle2).
  set (c := smaller_child h (length h) pos) in *.
  assert (((c - 1) / 2)%nat = pos) as Hcp by lia.
  unfold siftup_inv. rewrite length_insert.
  split; [done|]. split.
  - intros i Hi Hne. destruct (decide (((i - 1) / 2)%nat = pos)) as [Hp|Hp].
    + rewrite Hp, list_lookup_total_insert_eq by done.
      rewrite list_lookup_total_insert_ne by lia.
      assert (i = 2 * pos + 1 \/ i = 2 * pos + 2)%nat as [->| ->] by lia; [done|].
      apply Hle2. lia.
    + rewrite (list_lookup_total_insert_ne _ pos ((i - 1) / 2)%nat) by done.
      destruct (decide (i = pos)) as [->|Hne'].
      * rewrite list_lookup_total_insert_eq by done. apply HB; lia.
      * rewrite list_lookup_total_insert_ne by done. by apply HA.
  - intros i Hi Hc0 Hp. rewrite Hcp, list_lookup_total_insert_eq by done.
    rewrite list_lookup_total_insert_ne by lia.
    pose proof (HA i Hi ltac:(lia)) as Hi'. by rewrite Hp in Hi'.
Qed.

Lemma siftup_loop_inv fuel h pos :
  (length h - pos <= fuel)%nat -> siftup_inv h pos ->
  let '(h', pos') := siftup_loop fuel h (length h) pos in
  siftup_inv h' pos' /\ (length h' <= 2 * pos' + 1)%nat.
Proof.
  revert h pos. induction fuel as [|fuel IH]; intros h pos Hfuel Hinv.
  - simpl. split; [done|]. destruct Hinv. lia.
  - rewrite siftup_loop_S.
    destruct (Nat.ltb_spec (2 * pos + 1) (length h)) as [Hc|Hc]; [|done].
    destruct (smaller_child_cases h (length h) pos Hc) as (Hcc & Hcl & _).
    pose proof (siftup_inv_step h pos Hinv Hc) as Hstep.
    specialize (IH (<[pos := h !!! smaller_child h (length h) pos]> h)
                   (smaller_child h (length h) pos)).
    rewrite length_insert in IH. apply IH; [lia|done].
Qed.

(** At a leaf the two invariants meet. *)
Lemma siftup_inv_leaf h pos x :
  siftup_inv h pos -> (length h <= 2 * pos + 1)%nat ->
  siftdown_inv (<[pos := x]> h) pos x.
Proof.
  intros (Hpos & HA & HB) Hleaf. unfold siftdown_inv. rewrite length_insert.
  split; [done|]. split; [|split].
  - intros i Hi Hne. rewrite !list_lookup_total_insert_ne by lia.
    apply HA; lia.
  - intros i Hi H0 Hp. lia.
  - by rewrite list_lookup_total_insert_eq.
Qed.

Lemma _siftup_ok h : siftup_inv h 0 -> heap_ok (_siftup h 0).
Proof.
  intros Hinv. unfold _siftup.
  pose proof (siftup_loop_inv (length h) h 0 ltac:(lia) Hinv) as Hloop.
  pose proof (siftup_loop_length (length h) h (length h) 0) as Hlen.
  destruct (siftup_loop _ _ _ _) as [h' pos']. destruct Hloop as [Hinv' Hleaf].
  simpl in Hlen. unfold _siftdown.
  assert (pos' < length h')%nat as Hpos' by (by destruct Hinv').
  rewrite list_lookup_total_insert_eq by done.
  apply siftdown_loop_ok; [done|]. by apply siftup_inv_leaf.
Qed.

Lemma heappush_ok h x : heap_ok h -> heap_ok (heappush h x).
Proof.
  intros Hok. unfold heappush, _siftdown. rewrite length_app. cbn [List.length].
  replace (length h + 1 - 1)%nat with (length h) by lia.
  rewrite list_lookup_total_middle by done.
  apply siftdown_loop_ok; [done|].
  unfold siftdown_inv. rewrite length_app. cbn [List.length].
  split; [lia|]. split; [|split].
  - intros i Hi Hne. rewrite !lookup_total_app_l by lia. apply Hok. lia.
  - intros i Hi H0 Hp. lia.
  - by rewrite list_lookup_total_middle.
Qed.

Lemma heap_ok_nil : heap_ok [].
Proof. intros i Hi. simpl in Hi. lia. Qed.

(** The first element of a heap is a smallest one. *)
Lemma heap_ok_min h i :
  heap_ok h -> (i < length h)%nat -> freq (h !!! 0%nat) <= freq (h !!! i).
Proof.
  intros Hok. induction (lt_wf i) as [i _ IH]. intros Hi.
  destruct (decide (i = 0%nat)) as [->|Hne]; [lia|].
  pose proof (Hok i ltac:(lia)).
  pose proof (IH ((i - 1) / 2)%nat ltac:(lia) ltac:(lia)). lia.
Qed.

Lemma heap_ok_min_elem h x :
  heap_ok h -> x ∈ h -> freq (h !!! 0%nat) <= freq x.
Proof.
  intros Hok Hx. apply list_elem_of_lookup in Hx as [i Hi].
  pose proof (lookup_lt_Some _ _ _ Hi).
  apply list_lookup_total_correct in Hi as <-. by apply heap_ok_min.
Qed.

(** [heappop] on a heap returns a smallest element and leaves a heap. *)
Lemma heappop_ok h x h' :
  heap_ok h -> heappop h = Ok (x, h') ->
  heap_ok h' /\ (forall y, y ∈ h -> freq x <= freq y).
Proof.
  intros Hok. unfold heappop. pose proof (list_pop_spec h) as Hp.
  destruct (list_pop h) as [[lastelt h0]|e]; [|done].
  subst h. destruct h0 as [|a t]; intros [= <- <-].
  - split; [apply heap_ok_nil|].
    intros y Hy. apply list_elem_of_singleton in Hy as ->. lia.
  - split.
    + apply _siftup_ok. unfold siftup_inv.
      split; [cbn [List.length]; lia|]. split.
      * intros i Hi Hne. cbn [List.length] in Hi.
        pose proof (Hok i) as Hi'. rewrite length_app in Hi'.
        cbn [List.length] in Hi'.
        rewrite !lookup_total_app_l in Hi' by (cbn [List.length]; lia).
        destruct i as [|i]; [lia|].
        destruct ((S i - 1) / 2)%nat as [|j] eqn:Hj; [done|].
        apply Hi'. lia.
      * intros i Hi H0. lia.
    + intros y Hy. change a with (((a :: t) ++ [lastelt]) !!! 0%nat).
      by apply heap_ok_min_elem.
Qed.

(** ** make_heap and merge_nodes *)

Lemma heap_inv_nil : heap_inv [].
Proof. split; [apply heap_ok_nil|constructor]. Qed.

Lemma heappush_inv h x :
  heap_inv h -> strictly_binary x = true -> heap_inv (heappush h x).
Proof.
  intros [Hok Hall] Hx. split; [by apply heappush_ok|].
  rewrite heappush_Permutation. by constructor.
Qed.

Lemma heappop_inv h :
  heap_inv h -> h <> [] ->
  exists x h', heappop h = Ok (x, h') /\ h ≡ₚ x :: h'
    /\ length h = S (length h') /\ heap_inv h'
    /\ strictly_binary x = true
    /\ Forall (fun y => freq x <= freq y) h.
Proof.
  intros [Hok Hall] Hne.
  destruct (heappop_Permutation h Hne) as (x & h' & Hpop & Hperm & Hlen).
  destruct (heappop_ok h x h' Hok Hpop) as [Hok' Hmin].
  rewrite Hperm in Hall. inversion Hall; subst.
  exists x, h'. repeat split; try done. by apply Forall_forall.
Qed.

Lemma make_heap_loop_spec (freq_dict : dict ascii Z) h :
  heap_inv h ->
  let h' := fold_left push_item freq_dict h in
  heap_inv h'
  /\ length h' = (length h + length freq_dict)%nat
  /\ h' ≡ₚ h ++ map (fun item => new_Node (Some item.1) item.2) freq_dict.
Proof.
  revert h. induction freq_dict as [|[c f] d IH]; intros h Hinv; simpl.
  - split; [done|]. split; [lia|]. by rewrite app_nil_r.
  - destruct (IH (heappush h (new_Node (Some c) f))) as (Hinv' & Hlen & Hperm).
    { by apply heappush_inv. }
    split; [done|]. split.
    + rewrite Hlen, heappush_length. lia.
    + rewrite Hperm, heappush_Permutation. simpl.
      by rewrite Permutation_middle.
Qed.

Lemma merge_body_spec h : heap_inv h -> (1 < length h)%nat -> merge_pass h.
Proof.
  intros Hinv Hlen.
  destruct (heappop_inv h Hinv) as (n1 & h1 & Hp1 & Hperm1 & Hl1 & Hinv1 & Hn1 & Hmin1).
  { intros ->. simpl in Hlen. lia. }
  destruct (heappop_inv h1 Hinv1) as (n2 & h2 & Hp2 & Hperm2 & Hl2 & Hinv2 & Hn2 & Hmin2).
  { intros ->. simpl in *. lia. }
  exists n1, h1, n2, h2. repeat split; try done.
  - unfold merge_body. by rewrite Hp1, Hp2.
  - by apply heappush_ok, Hinv2.
  - rewrite heappush_Permutation. constructor; [|apply Hinv2].
    simpl. rewrite Hn1, Hn2, Z.eqb_refl. done.
  - rewrite heappush_length. lia.
  - rewrite heappush_Permutation, Hperm1, Hperm2. simpl.
    by rewrite app_assoc.
Qed.

(** The counter of the loop never cuts it short: from a heap of [n + 1]
    nodes the loop ends on its own condition, with one node. *)
Lemma merge_loop_spec fuel h :
  heap_inv h -> h <> [] -> (length h <= S fuel)%nat ->
  exists root, merge_loop fuel h = ([root], Ok tt)
    /\ strictly_binary root = true
    /\ leaf_chars root ≡ₚ flat_map leaf_chars h.
Proof.
  revert h. induction fuel as [|fuel IH]; intros h Hinv Hne Hlen.
  - destruct h as [|root [|? ?]]; simpl in *; try done; try lia.
    exists root. destruct Hinv as [_ Hall]. inversion Hall; subst.
    by rewrite app_nil_r.
  - simpl. destruct (Nat.ltb_spec 1 (length h)) as [H1|H1].
    + destruct (merge_body_spec h Hinv H1)
        as (n1 & h1 & n2 & h2 & _ & _ & _ & _ & _ & _ & Hbody & Hinv' & Hlen' & Hleaf).
      rewrite Hbody.
      destruct (IH _ Hinv') as (root & Hloop & Hsb & Hl).
      { intros Hnil. rewrite Hnil in Hlen'. simpl in Hlen'. lia. }
      { lia. }
      exists root. by rewrite <- Hleaf.
    + destruct h as [|root [|? ?]]; simpl in *; try done; try lia.
      exists root. destruct Hinv as [_ Hall]. inversion Hall; subst.
      by rewrite app_nil_r.
Qed.

Lemma flat_map_leaf_chars_new (freq_dict : dict ascii Z) :
  flat_map leaf_chars (map (fun item => new_Node (Some item.1) item.2) freq_dict)
  = dict_keys freq_dict.
Proof.
  induction freq_dict as [|[c f] d IH]; simpl; [done|]. by rewrite IH.
Qed.

Lemma merge_nodes_unfold h self :
  heap_inv h -> (1 < length h)%nat ->
  merge_nodes (set_heap h self) = merge_nodes (set_heap (merge_body h).1 self).
Proof.
  intros Hinv Hlen.
  destruct (merge_body_spec h Hinv Hlen)
    as (n1 & h1 & n2 & h2 & _ & _ & _ & _ & _ & _ & Hbody & _ & Hlen' & _).
  unfold merge_nodes. cbn [heap set_heap]. rewrite Hbody. cbn [fst].
  rewrite Hlen'. destruct (length h) as [|n] eqn:Hn; [lia|].
  replace (S n - 1)%nat with n by lia.
  cbn [merge_loop]. rewrite Hn.
  destruct (Nat.ltb_spec 1 (S n)) as [_|?]; [|lia].
  rewrite Hbody. done.
Qed.

(** C3. On the heap that [make_heap] loads from a non-empty frequency table,
    every pass of [merge_nodes] (on a heap of two or more nodes that satisfies
    the heap invariant, which each pass keeps) pops a node of smallest
    frequency, then a node of smallest frequency among the others, and pushes
    back a node without character whose frequency is the sum of theirs, whose
    left child is the first popped and whose right child is the second; the
    loop ends with exactly one node in the heap, and in that tree every node
    without character has two children and the sum of their frequencies. *)
Theorem merge_nodes_spec (freq_dict : dict ascii Z) (self : HuffmanEncoder) :
  freq_dict <> [] ->
  let loaded := (make_heap freq_dict (set_heap [] self)).1 in
  heap_inv (heap loaded)
  /\ length (heap loaded) = length freq_dict
  /\ (forall h s, heap_inv h -> (1 < length h)%nat ->
        merge_pass h
        /\ merge_nodes (set_heap h s) = merge_nodes (set_heap (merge_body h).1 s))
  /\ (forall root s, merge_nodes (set_heap [root] s) = (set_heap [root] s, Ok tt))
  /\ exists root,
       merge_nodes loaded = (set_heap [root] loaded, Ok tt)
       /\ strictly_binary root = true
       /\ leaf_chars root ≡ₚ dict_keys freq_dict.
Proof.
  intros Hne loaded.
  destruct (make_heap_loop_spec freq_dict [] heap_inv_nil) as (Hinv & Hlen & Hperm).
  assert (heap loaded = fold_left push_item freq_dict []) as Hheap by done.
  split; [by rewrite Hheap|]. split; [by rewrite Hheap, Hlen|].
  split; [|split].
  - intros h s Hh Hl. split; [by apply merge_body_spec|by apply merge_nodes_unfold].
  - done.
  - destruct (merge_loop_spec (length (heap loaded)) (heap loaded))
      as (root & Hloop & Hsb & Hleaf).
    + by rewrite Hheap.
    + rewrite Hheap. intros Hnil. rewrite Hnil in Hlen.
      destruct freq_dict; [done|simpl in Hlen; lia].
    + lia.
    + exists root. split; [|split; [done|]].
      * unfold merge_nodes. rewrite Hloop. done.
      * rewrite Hleaf, Hheap, Hperm. simpl. by rewrite flat_map_leaf_chars_new.
Qed.

Lemma merge_nodes_spec_witness :
  exists root,
    merge_nodes
      (make_heap [("A"%char, 2); ("B"%char, 3); ("C"%char, 4)]
         (set_heap [] new_HuffmanEncoder)).1
    = (set_heap [root]
         (make_heap [("A"%char, 2); ("B"%char, 3); ("C"%char, 4)]
            (set_heap [] new_HuffmanEncoder)).1, Ok tt)
    /\ strictly_binary root = true.
Proof.
  destruct (merge_nodes_spec [("A"%char, 2); ("B"%char, 3); ("C"%char, 4)]
              new_HuffmanEncoder ltac:(discriminate))
    as (_ & _ & _ & _ & root & Hrun & Hsb & _).
  exists root. split; [exact Hrun|exact Hsb].
Defined.

(** ** make_codes *)

(** Induction on a tree: the children first. *)
Lemma Node_tree_ind (P : Node -> Prop) :
  (forall c f l r,
      (forall n, l = Some n -> P n) -> (forall n, r = Some n -> P n) ->
      P (mkNode c f l r)) ->
  forall n, P n.
Proof.
  intros Hstep. fix IH 1. intros [c f l r]. apply Hstep.
  - destruct l as [x|]; intros n Heq; [|discriminate].
    injection Heq as <-. apply IH.
  - destruct r as [x|]; intros n Heq; [|discriminate].
    injection Heq as <-. apply IH.
Qed.

Lemma leaf_at_prefix node p1 c1 p2 c2 :
  leaf_at node p1 c1 -> leaf_at node p2 c2 -> p1 `prefix_of` p2 ->
  p1 = p2 /\ c1 = c2.
Proof.
  intros H1. revert p2 c2.
  induction H1 as [c f l r|f l r p c H1 IH|f l r p c H1 IH];
    intros p2 c2 H2 Hpre;
    inversion H2 as [|? ? ? q ? Hq|? ? ? q ? Hq]; subst; try done.
  - apply prefix_cons_inv_2 in Hpre. destruct (IH _ _ Hq Hpre) as [-> ->]. done.
  - by apply prefix_cons_inv_1 in Hpre.
  - by apply prefix_cons_inv_1 in Hpre.
  - apply prefix_cons_inv_2 in Hpre. destruct (IH _ _ Hq Hpre) as [-> ->]. done.
Qed.

(** An entry of the code table after [make_codes_helper] was there before or
    is the path to a leaf with that character. *)
Lemma codes_of_node_get node : forall current_code t k v,
  dict_get k (codes_of_node node current_code t).1 = Some v ->
  dict_get k t.1 = Some v
  \/ exists path, leaf_at node path k /\ v = current_code ++ path.
Proof.
  induction node as [c f l r IHl IHr] using Node_tree_ind.
  intros cur t k v. destruct c as [c|]; cbn [codes_of_node fst].
  - rewrite dict_get_set. destruct (decide (k = c)) as [->|Hne]; [|by left].
    intros [= <-]. right. exists []. split; [constructor|by rewrite app_nil_r].
  - set (t1 := match l with Some n => codes_of_node n (cur ++ py "0") t | None => t end).
    intros Hget.
    assert (dict_get k t1.1 = Some v
            \/ exists path, leaf_at (mkNode None f l r) path k /\ v = cur ++ path)
      as [Hget1|?]; [|subst t1|by right].
    { destruct r as [n|]; [|by left].
      apply (IHr n eq_refl) in Hget as [?|(path & Hleaf & ->)]; [by left|].
      right. exists ("1"%char :: path). split; [by constructor|].
      by rewrite <- app_assoc. }
    destruct l as [n|]; [|by left].
    apply (IHl n eq_refl) in Hget1 as [?|(path & Hleaf & ->)]; [by left|].
    right. exists ("0"%char :: path). split; [by constructor|].
    by rewrite <- app_assoc.
Qed.

Lemma codes_of_node_prefix_free node rc :
  prefix_free (codes_of_node node [] ([], rc)).1.
Proof.
  intros a b ca cb Hne Ha Hb.
  apply codes_of_node_get in Ha as [?|(pa & Hla & ->)]; [done|].
  apply codes_of_node_get in Hb as [?|(pb & Hlb & ->)]; [done|].
  simpl. split; intros Hpre.
  - by destruct (leaf_at_prefix _ _ _ _ _ Hla Hlb Hpre).
  - by destruct (leaf_at_prefix _ _ _ _ _ Hlb Hla Hpre).
Qed.

(** The entries that [make_codes_helper] writes do not depend on what the
    tables held before; the other entries stay. *)
Lemma codes_of_node_over node : forall current_code t k,
  dict_get k (codes_of_node node current_code t).1
  = match dict_get k (codes_of_node node current_code ([], [])).1 with
    | Some v => Some v
    | None => dict_get k t.1
    end.
Proof.
  induction node as [c f l r IHl IHr] using Node_tree_ind.
  intros cur t k. destruct c as [c|]; cbn [codes_of_node fst].
  - rewrite !dict_get_set. by destruct (decide (k = c)).
  - destruct l as [nl|], r as [nr|]; try done.
    + rewrite (IHr nr eq_refl _ (codes_of_node nl _ t)).
      rewrite (IHr nr eq_refl _ (codes_of_node nl _ ([], []))).
      rewrite (IHl nl eq_refl _ t).
      by destruct (dict_get k (codes_of_node nr _ ([], [])).1).
    + apply (IHl nl eq_refl).
    + apply (IHr nr eq_refl).
Qed.

(** Every character at a leaf gets an entry. *)
Lemma codes_of_node_covers node : forall current_code t k,
  k ∈ leaf_chars node ->
  is_Some (dict_get k (codes_of_node node current_code t).1).
Proof.
  induction node as [c f l r IHl IHr] using Node_tree_ind.
  intros cur t k. destruct c as [c|]; cbn [codes_of_node leaf_chars fst].
  - intros ->%list_elem_of_singleton. rewrite dict_get_set_eq. by eexists.
  - rewrite elem_of_app. intros [Hk|Hk].
    + destruct l as [nl|]; [|by apply not_elem_of_nil in Hk].
      destruct r as [nr|]; [|by apply (IHl nl eq_refl)].
      rewrite codes_of_node_over.
      destruct (dict_get k (codes_of_node nr _ ([], [])).1); [by eexists|].
      by apply (IHl nl eq_refl).
    + destruct r as [nr|]; [|by apply not_elem_of_nil in Hk].
      by apply (IHr nr eq_refl).
Qed.

(** ** The pipeline up to the code table *)

Lemma compress_text_split text self :
  compress_text text self = (_ <- build_codes text ;; pack text) self.
Proof.
  unfold compress_text, build_codes, pack, bind.
  destruct (make_frequency_dict text self) as [s1 [fd|e]]; [|done].
  destruct (make_heap fd s1) as [s2 [[]|e]]; [|done].
  destruct (merge_nodes s2) as [s3 [[]|e]]; [|done].
  done.
Qed.

(** On a non-empty text and an encoder whose heap is empty, the four calls
    succeed; the tree they build depends on the text only. *)
Lemma build_codes_spec text :
  text <> [] ->
  exists root,
    strictly_binary root = true
    /\ leaf_chars root ≡ₚ dict_keys (frequency_dict text)
    /\ forall self, heap self = [] ->
         build_codes text self = (after_codes root self, Ok tt).
Proof.
  intros Hne.
  destruct (make_heap_loop_spec (frequency_dict text) [] heap_inv_nil)
    as (Hinv & Hlen & Hperm).
  set (h0 := fold_left push_item (frequency_dict text) []) in *.
  destruct (merge_loop_spec (length h0) h0 Hinv) as (root & Hloop & Hsb & Hleaf).
  { intros Hnil. rewrite Hnil in Hlen. simpl in Hlen.
    pose proof (frequency_dict_nonempty text Hne).
    destruct (frequency_dict text); [done|simpl in Hlen; lia]. }
  { lia. }
  exists root. split; [done|]. split.
  - rewrite Hleaf, Hperm. simpl. by rewrite flat_map_leaf_chars_new.
  - intros self Hheap.
    unfold build_codes, bind, make_frequency_dict, ret, make_heap, merge_nodes.
    cbn [heap set_heap]. rewrite Hheap. fold h0. rewrite Hloop.
    unfold make_codes, bind, heappop_self. cbn [heap set_heap].
    done.
Qed.

(** C1. For every non-empty text, building the tree and assigning the codes
    on a new encoder succeeds, and in the code table it leaves no code is a
    prefix of the code of another symbol. *)
Theorem codes_prefix_free (text : str) :
  text <> [] ->
  exists self',
    build_codes text new_HuffmanEncoder = (self', Ok tt)
    /\ prefix_free (codes self').
Proof.
  intros Hne. destruct (build_codes_spec text Hne) as (root & _ & _ & Hrun).
  exists (after_codes root new_HuffmanEncoder). split; [by apply Hrun|].
  apply codes_of_node_prefix_free.
Qed.

Lemma codes_prefix_free_witness :
  exists self',
    build_codes (py "AABBBCCCC") new_HuffmanEncoder = (self', Ok tt)
    /\ prefix_free (codes self').
Proof. apply (codes_prefix_free (py "AABBBCCCC")). discriminate. Defined.

(** ** Scenarios *)

(** C5. On ["AABBBCCCC"] the frequency table is [{A: 2, B: 3, C: 4}], the
    encoded bit string has 14 characters, the padding is 2, the padded string
    has 16 characters and packs into 2 bytes, and the header byte is 2. *)
Theorem scenario_AABBBCCCC :
  let text := py "AABBBCCCC" in
  make_frequency_dict text new_HuffmanEncoder
    = (new_HuffmanEncoder, Ok [("A"%char, 2); ("B"%char, 3); ("C"%char, 4)])
  /\ exists coded encoded_text padded_text packed final_bytes,
       build_codes text new_HuffmanEncoder = (coded, Ok tt)
       /\ get_encoded_text text coded = (coded, Ok encoded_text)
       /\ encoded_text = join_codes (codes coded) text
       /\ length encoded_text = 14%nat
       /\ pad_encoded_text encoded_text coded = (packed, Ok (padded_text, 2))
       /\ padding packed = 2
       /\ length padded_text = 16%nat
       /\ pack_bytes padded_text = Ok final_bytes
       /\ length final_bytes = 2%nat
       /\ compress_text text new_HuffmanEncoder = (packed, Ok (2 :: final_bytes)).
Proof.
  split; [reflexivity|].
  eexists _, _, _, _, _.
  split; [vm_compute; reflexivity|].
  split; [vm_compute; reflexivity|].
  repeat split; vm_compute; reflexivity.
Qed.

(** C7, as the code has it. On ["AAAA"] the frequency table is [{A: 4}] and
    the tree is a single leaf, without internal node; the code that
    [make_codes] assigns to ["A"] is the empty string, so the encoded text is
    empty and the output is the header and one byte of padding, whatever the
    number of repetitions. *)
Theorem single_symbol_AAAA :
  let text := py "AAAA" in
  let leaf := new_Node (Some "A"%char) 4 in
  make_frequency_dict text new_HuffmanEncoder
    = (new_HuffmanEncoder, Ok [("A"%char, 4)])
  /\ (_ <- make_heap [("A"%char, 4)] ;; merge_nodes) new_HuffmanEncoder
     = (set_heap [leaf] new_HuffmanEncoder, Ok tt)
  /\ internal_nodes leaf = 0%nat
  /\ (build_codes text new_HuffmanEncoder).2 = Ok tt
  /\ dict_get "A"%char (codes (build_codes text new_HuffmanEncoder).1) = Some []
  /\ (compress_text text new_HuffmanEncoder).2 = Ok [8; 0]
  /\ (compress_text (py "AA") new_HuffmanEncoder).2 = Ok [8; 0].
Proof. repeat split; vm_compute; reflexivity. Qed.

(** ** Empty input *)

(** C6, counterexample. Encoding the empty text does not fail with an
    exception named [EmptyInput]. *)
Lemma empty_input_not_EmptyInput :
  ~ (exists self' e,
        compress_text (py "") new_HuffmanEncoder = (self', Raise e)
        /\ exc_name e = "EmptyInput"%string).
Proof. intros (self' & e & Hrun & Hname). vm_compute in Hrun. by injection Hrun as <- <-. Qed.

(** C6, as the code has it. On an encoder with an empty heap, encoding the empty text
    fails with [IndexError]: [make_heap] and [merge_nodes] return normally
    with the heap still empty, and [heappop] in [make_codes] raises on the
    empty heap. The encoder is left as it was. *)
Theorem empty_input_IndexError (self : HuffmanEncoder) :
  let s := set_heap [] self in
  make_frequency_dict (py "") s = (s, Ok [])
  /\ make_heap [] s = (s, Ok tt)
  /\ merge_nodes s = (s, Ok tt)
  /\ make_codes s = (s, Raise IndexError)
  /\ compress_text (py "") s = (s, Raise IndexError)
  /\ exc_name IndexError = "IndexError"%string.
Proof. repeat split. Qed.

(** ** Reusing an encoder *)

(** They store the padding and touch nothing else; what they return depends
    on the encoded text only. *)
Lemma pack_encoded_run encoded_text self :
  pack_encoded encoded_text self
  = (set_padding (8 - Z.of_nat (length encoded_text) mod 8) self,
     (pack_encoded encoded_text new_HuffmanEncoder).2).
Proof.
  unfold pack_encoded, bind, pad_encoded_text, lift, ret.
  destruct (pack_bytes _) as [final_bytes|e]; [|done].
  destruct (byte_value _) as [header|e]; done.
Qed.

Lemma pack_covered text self :
  Forall (fun c => is_Some (dict_get c (codes self))) text ->
  pack text self = pack_encoded (join_codes (codes self) text) self.
Proof.
  intros Hall. unfold pack, pack_encoded, bind, get_encoded_text.
  rewrite encode_loop_covered by done. done.
Qed.

Lemma join_codes_ext codes1 codes2 text :
  Forall (fun c => dict_get c codes1 = dict_get c codes2) text ->
  join_codes codes1 text = join_codes codes2 text.
Proof.
  unfold join_codes. induction 1 as [|c text Hc Hall IH]; simpl; [done|].
  by rewrite Hc, IH.
Qed.

(** [compress_text] on an encoder whose heap is empty, against a new one. *)
Lemma compress_text_empty_heap text self :
  heap self = [] ->
  let run := compress_text text self in
  let fresh := compress_text text new_HuffmanEncoder in
  run.2 = fresh.2
  /\ heap run.1 = []
  /\ padding run.1 = (if decide (text = []) then padding self else padding fresh.1)
  /\ (forall c, dict_get c (codes run.1)
        = match dict_get c (codes fresh.1) with
          | Some code => Some code
          | None => dict_get c (codes self)
          end).
Proof.
  intros Hheap. destruct (decide (text = [])) as [->|Hne].
  - destruct self as [h cs rcs p]. simpl in Hheap. subst h. by repeat split.
  - destruct (build_codes_spec text Hne) as (root & Hsb & Hleaf & Hrun).
    assert (forall s, heap s = [] ->
              Forall (fun c => is_Some (dict_get c (codes (after_codes root s)))) text)
      as Hcov.
    { intros s _. apply Forall_forall. intros c Hc.
      apply codes_of_node_covers. rewrite Hleaf. by apply frequency_dict_keys. }
    cbv zeta. rewrite !compress_text_split. unfold bind.
    rewrite (Hrun self Hheap), (Hrun new_HuffmanEncoder eq_refl).
    rewrite !pack_covered by (by apply Hcov).
    rewrite (pack_encoded_run _ (after_codes root self)).
    rewrite (pack_encoded_run _ (after_codes root new_HuffmanEncoder)).
    assert (join_codes (codes (after_codes root self)) text
            = join_codes (codes (after_codes root new_HuffmanEncoder)) text) as Hjoin.
    { apply join_codes_ext. apply Forall_forall. intros c Hc.
      cbn [after_codes set_tables set_heap codes fst].
      rewrite codes_of_node_over.
      assert (c ∈ leaf_chars root) as Hin
        by (rewrite Hleaf; by apply frequency_dict_keys).
      destruct (codes_of_node_covers root [] ([], []) c Hin) as [v Hv].
      simpl in Hv. by rewrite Hv. }
    rewrite Hjoin. cbn [fst snd]. repeat split.
    intros c. cbn [after_codes set_tables set_heap set_padding codes fst].
    apply codes_of_node_over.
Qed.

Lemma after_calls_heap texts : heap (after_calls texts) = [].
Proof.
  unfold after_calls. induction texts as [|text texts IH] using rev_ind; [done|].
  rewrite fold_left_app. simpl.
  by destruct (compress_text_empty_heap text _ IH) as (_ & Hh & _).
Qed.

(** C9, counterexample. A second encode on the same encoder does not
    behave exactly as a first encode on a new one: after encoding ["AB"],
    encoding ["C"] leaves the codes of ["A"] and ["B"] in the code table. *)
Lemma second_encode_differs :
  compress_text (py "C") (compress_text (py "AB") new_HuffmanEncoder).1
    <> compress_text (py "C") new_HuffmanEncoder
  /\ codes (compress_text (py "C") (compress_text (py "AB") new_HuffmanEncoder).1).1
     = [("A"%char, py "0"); ("B"%char, py "1"); ("C"%char, py "")]
  /\ codes (compress_text (py "C") new_HuffmanEncoder).1 = [("C"%char, py "")].
Proof. split; [by vm_compute|split; reflexivity]. Qed.

(** C9, as the code has it. After any sequence of earlier [compress] calls on the same
    encoder the heap is empty, and the next call returns what it returns on a
    new encoder (the same bytes or the same exception), stores the same
    padding (none for the empty text) and leaves the heap empty again; the
    code table holds the codes the call assigns on a new encoder and, for all
    other symbols, the entries that earlier calls left. *)
Theorem compress_text_reuse (earlier : list str) (text : str) :
  let self := after_calls earlier in
  let run := compress_text text self in
  let fresh := compress_text text new_HuffmanEncoder in
  heap self = []
  /\ run.2 = fresh.2
  /\ heap run.1 = []
  /\ padding run.1 = (if decide (text = []) then padding self else padding fresh.1)
  /\ (forall c, dict_get c (codes run.1)
        = match dict_get c (codes fresh.1) with
          | Some code => Some code
          | None => dict_get c (codes self)
          end).
Proof.
  intros self run fresh. split; [apply after_calls_heap|].
  apply compress_text_empty_heap, after_calls_heap.
Qed.

(** ** compress succeeds on every non-empty text *)

Lemma leaf_at_binary node path c : leaf_at node path c -> binary path.
Proof. induction 1; constructor; auto. Qed.

Lemma join_codes_binary codes text :
  (forall c code, dict_get c codes = Some code -> binary code) ->
  binary (join_codes codes text).
Proof.
  intros Hcodes. unfold join_codes, binary.
  induction text as [|c text IH]; simpl; [constructor|].
  apply Forall_app. split; [|done].
  destruct (dict_get c codes) as [code|] eqn:Hc; simpl; [|constructor].
  by apply (Hcodes c).
Qed.

Lemma int2_digits_binary s : binary s -> forall acc, 0 <= acc ->
  exists v, int2_digits acc s = Ok v
    /\ acc * 2 ^ Z.of_nat (length s) <= v < (acc + 1) * 2 ^ Z.of_nat (length s).
Proof.
  induction 1 as [|c s Hc Hs IH]; intros acc Hacc; simpl int2_digits.
  - exists acc. split; [done|]. simpl. lia.
  - cbn [List.length]. rewrite Nat2Z.inj_succ, Z.pow_succ_r by lia.
    assert (0 < 2 ^ Z.of_nat (length s)) as Hpos by (apply Z.pow_pos_nonneg; lia).
    destruct Hc as [-> | ->].
    + rewrite decide_True by done.
      destruct (IH (2 * acc) ltac:(lia)) as (v & Hv & Hb). exists v. split; [done|nia].
    + rewrite decide_False by done. rewrite decide_True by done.
      destruct (IH (2 * acc + 1) ltac:(lia)) as (v & Hv & Hb). exists v. split; [done|nia].
Qed.

Lemma int_base2_byte s :
  binary s -> (0 < length s <= 8)%nat ->
  exists v, int_base2 s = Ok v /\ byte_value v = Ok v.
Proof.
  intros Hs Hlen. destruct (int2_digits_binary s Hs 0 ltac:(lia)) as (v & Hv & Hb).
  exists v. split.
  - destruct s; [simpl in Hlen; lia|done].
  - assert (2 ^ Z.of_nat (length s) <= 2 ^ 8) by (apply Z.pow_le_mono_r; lia).
    unfold byte_value.
    destruct (Z.leb_spec 0 v); [|lia]. destruct (Z.ltb_spec v 256); [done|lia].
Qed.

Lemma pack_loop_total padded_text idx : forall final_bytes,
  binary padded_text -> Forall (fun i => (i < length padded_text)%nat) idx ->
  exists bytes, pack_loop padded_text idx final_bytes = Ok (final_bytes ++ bytes)
    /\ length bytes = length idx.
Proof.
  induction idx as [|i idx IH]; intros acc Hbin Hidx; simpl.
  - exists []. by rewrite app_nil_r.
  - inversion Hidx as [|? ? Hi Hidx']; subst.
    destruct (int_base2_byte (take 8 (drop i padded_text))) as (v & Hv & Hbyte).
    { by apply Forall_take, Forall_drop. }
    { rewrite length_take, length_drop. lia. }
    rewrite Hv, Hbyte.
    destruct (IH (acc ++ [v]) Hbin Hidx') as (bytes & Hrun & Hlen).
    exists (v :: bytes). rewrite Hrun, <- app_assoc. simpl. by rewrite Hlen.
Qed.

Lemma range8_spec n :
  Forall (fun i => (i < n)%nat) (range8 n) /\ length (range8 n) = ((n + 7) / 8)%nat.
Proof.
  unfold range8. split.
  - apply Forall_forall. intros i Hi. apply list_elem_of_In, in_map_iff in Hi.
    destruct Hi as (k & <- & Hk). apply in_seq in Hk. lia.
  - by rewrite length_map, length_seq.
Qed.

(** On a non-empty text and a new encoder [compress_text] returns the header
    byte, between 1 and 8, and one byte for every eight characters of the
    padded bit string. *)
Lemma compress_text_total text :
  text <> [] ->
  exists self' header final_bytes,
    compress_text text new_HuffmanEncoder = (self', Ok (header :: final_bytes))
    /\ 1 <= header <= 8 /\ padding self' = header
    /\ 8 * Z.of_nat (length final_bytes)
       = Z.of_nat (length (join_codes (codes self') text)) + header.
Proof.
  intros Hne. destruct (build_codes_spec text Hne) as (root & Hsb & Hleaf & Hrun).
  set (coded := after_codes root new_HuffmanEncoder).
  assert (Forall (fun c => is_Some (dict_get c (codes coded))) text) as Hcov.
  { apply Forall_forall. intros c Hc.
    apply codes_of_node_covers. rewrite Hleaf. by apply frequency_dict_keys. }
  assert (binary (join_codes (codes coded) text)) as Hbin.
  { apply join_codes_binary. intros c code Hc.
    apply codes_of_node_get in Hc as [?|(path & Hpath & ->)]; [done|].
    by apply leaf_at_binary in Hpath. }
  set (encoded_text := join_codes (codes coded) text) in *.
  destruct (pad_encoded_text_facts encoded_text) as (Hp & _ & Hlen & Hmod).
  set (header := 8 - Z.of_nat (length encoded_text) mod 8) in *.
  set (padded_text := encoded_text ++ replicate (Z.to_nat header) "0"%char) in *.
  destruct (range8_spec (length padded_text)) as [Hidx Hn].
  destruct (pack_loop_total padded_text (range8 (length padded_text)) [])
    as (bytes & Hpack & Hbytes); [|done|].
  { apply Forall_app. split; [done|]. apply Forall_replicate. by left. }
  exists (set_padding header coded), header, bytes.
  split; [|split; [done|split; [done|]]].
  - rewrite compress_text_split. unfold bind.
    rewrite (Hrun new_HuffmanEncoder eq_refl). fold coded.
    rewrite pack_covered by done. fold encoded_text.
    unfold pack_encoded, bind, pad_encoded_text, lift, ret.
    fold header. fold padded_text. unfold pack_bytes. rewrite Hpack.
    unfold byte_value.
    destruct (Z.leb_spec 0 header); [|lia]. destruct (Z.ltb_spec header 256); [done|lia].
  - cbn [set_padding codes]. fold encoded_text. rewrite Hbytes, Hn.
    rewrite Hlen. lia.
Qed.

(** ** The loop counters *)

(** The counters only bound the loops: any larger counter gives the same
    result, so no loop is cut short. *)
Lemma siftdown_loop_fuel fuel1 : forall fuel2 h startpos pos x,
  (pos <= fuel1)%nat -> (pos <= fuel2)%nat ->
  siftdown_loop fuel1 h startpos pos x = siftdown_loop fuel2 h startpos pos x.
Proof.
  induction fuel1 as [|fuel1 IH]; intros fuel2 h startpos pos x H1 H2.
  - assert (pos = 0%nat) as -> by lia. destruct fuel2 as [|fuel2]; [done|].
    rewrite siftdown_loop_S. by destruct (Nat.ltb_spec startpos 0); [lia|].
  - destruct fuel2 as [|fuel2].
    + assert (pos = 0%nat) as -> by lia.
      rewrite siftdown_loop_S. by destruct (Nat.ltb_spec startpos 0); [lia|].
    + rewrite !siftdown_loop_S.
      destruct (Nat.ltb_spec startpos pos); [|done].
      destruct (Node_lt _ _); [|done]. apply IH; lia.
Qed.

Lemma siftup_loop_fuel fuel1 : forall fuel2 h endpos pos,
  (endpos - pos <= fuel1)%nat -> (endpos - pos <= fuel2)%nat ->
  siftup_loop fuel1 h endpos pos = siftup_loop fuel2 h endpos pos.
Proof.
  induction fuel1 as [|fuel1 IH]; intros fuel2 h endpos pos H1 H2.
  - destruct fuel2 as [|fuel2]; [done|]. rewrite siftup_loop_S.
    by destruct (Nat.ltb_spec (2 * pos + 1) endpos); [lia|].
  - destruct fuel2 as [|fuel2].
    + rewrite siftup_loop_S.
      by destruct (Nat.ltb_spec (2 * pos + 1) endpos); [lia|].
    + rewrite !siftup_loop_S.
      destruct (Nat.ltb_spec (2 * pos + 1) endpos) as [Hc|Hc]; [|done].
      destruct (smaller_child_cases h endpos pos Hc) as (Hcc & _).
      apply IH; lia.
Qed.

Lemma merge_loop_fuel fuel1 : forall fuel2 h,
  heap_inv h -> (length h <= S fuel1)%nat -> (length h <= S fuel2)%nat ->
  merge_loop fuel1 h = merge_loop fuel2 h.
Proof.
  induction fuel1 as [|fuel1 IH]; intros fuel2 h Hinv H1 H2.
  - destruct fuel2 as [|fuel2]; [done|]. simpl.
    by destruct (Nat.ltb_spec 1 (length h)); [lia|].
  - destruct fuel2 as [|fuel2]; simpl.
    + by destruct (Nat.ltb_spec 1 (length h)); [lia|].
    + destruct (Nat.ltb_spec 1 (length h)) as [Hl|Hl]; [|done].
      destruct (merge_body_spec h Hinv Hl)
        as (n1 & h1 & n2 & h2 & _ & _ & _ & _ & _ & _ & Hbody & Hinv' & Hlen' & _).
      rewrite Hbody. apply IH; [done|lia|lia].
Qed.

(** ** The tests of the module *)

Example test_frequency_dict :
  let freq := frequency_dict (py "AABBBCCCC") in
  dict_get "A"%char freq = Some 2 /\ dict_get "B"%char freq = Some 3
  /\ dict_get "C"%char freq = Some 4.
Proof. by repeat split. Qed.

Example test_empty_input : length (frequency_dict (py "")) = 0%nat.
Proof. reflexivity. Qed.

Example test_heap_creation :
  length (heap (make_heap (frequency_dict (py "AABBBCCCC")) new_HuffmanEncoder).1)
  = 3%nat.
Proof. reflexivity. Qed.

Example test_encoding_process :
  exists encoded,
    (_ <- build_codes (py "AABBBCCCC") ;; get_encoded_text (py "AABBBCCCC"))
      new_HuffmanEncoder
    = ((build_codes (py "AABBBCCCC") new_HuffmanEncoder).1, Ok encoded)
    /\ Forall (fun c => c ∈ py "01") encoded.
Proof.
  eexists. split; [vm_compute; reflexivity|].
  repeat constructor.
Qed.

Example test_padding :
  exists padded_text,
    (pad_encoded_text (py "1010101") new_HuffmanEncoder).2 = Ok (padded_text, 1)
    /\ (length padded_text mod 8)%nat = 0%nat.
Proof. eexists. split; reflexivity. Qed.

(** ** The single-symbol alphabet, in general *)

Lemma count_char_single c k : count_char [(c, k)] c = [(c, k + 1)].
Proof. unfold count_char. simpl. by rewrite !decide_True. Qed.

Lemma count_loop_single c n k :
  fold_left count_char (replicate n c) [(c, k)] = [(c, k + Z.of_nat n)].
Proof.
  revert k. induction n as [|n IH]; intros k.
  - simpl. f_equal. f_equal. lia.
  - cbn [replicate fold_left]. rewrite count_char_single, IH.
    f_equal. f_equal. lia.
Qed.

Lemma join_codes_single c n : join_codes [(c, [])] (replicate n c) = [].
Proof.
  unfold join_codes. induction n as [|n IH]; [done|].
  simpl. by rewrite decide_True.
Qed.

(** Whatever the symbol and the number of repetitions, the only code is the
    empty string and the output is the header and one byte of padding. *)
Lemma single_symbol_empty_code c n :
  let text := replicate (S n) c in
  codes (build_codes text new_HuffmanEncoder).1 = [(c, [])]
  /\ (compress_text text new_HuffmanEncoder).2 = Ok [8; 0].
Proof.
  assert (frequency_dict (replicate (S n) c) = [(c, Z.of_nat (S n))]) as Hfd.
  { unfold frequency_dict. cbn [replicate fold_left].
    change (count_char [] c) with [(c, 1)].
    rewrite count_loop_single. f_equal. f_equal. lia. }
  assert (build_codes (replicate (S n) c) new_HuffmanEncoder
          = (mkHuffmanEncoder [] [(c, [])] [([], c)] 0, Ok tt)) as Hbuild.
  { unfold build_codes, bind, make_frequency_dict, ret. rewrite Hfd. reflexivity. }
  cbv zeta. rewrite compress_text_split. unfold bind. rewrite Hbuild.
  split; [done|].
  rewrite pack_covered.
  - cbn [codes].
    by rewrite join_codes_single.
  - apply Forall_forall. intros x Hx%elem_of_replicate. destruct Hx as [-> _].
    simpl. rewrite decide_True by done. by eexists.
Qed.

(** * Further properties of the encoder *)

(** ** make_heap on any heap *)

Lemma make_heap_loop_ok (freq_dict : dict ascii Z) h :
  heap_ok h ->
  let h' := fold_left push_item freq_dict h in
  heap_ok h'
  /\ length h' = (length h + length freq_dict)%nat
  /\ h' ≡ₚ h ++ map (fun item => new_Node (Some item.1) item.2) freq_dict.
Proof.
  revert h. induction freq_dict as [|[c f] d IH]; intros h Hok; simpl.
  - split; [done|]. split; [lia|]. by rewrite app_nil_r.
  - destruct (IH (heappush h (new_Node (Some c) f))) as (Hok' & Hlen & Hperm).
    { by apply heappush_ok. }
    split; [done|]. split.
    + rewrite Hlen, heappush_length. lia.
    + rewrite Hperm, heappush_Permutation. simpl.
      by rewrite Permutation_middle.
Qed.

(** X1. [make_heap] adds to the heap that is there: on a heap that is in
    heap order it returns normally, writes nothing but [self.heap], leaves it
    in heap order with one childless node [Node(char, freq)] more for every
    entry of the table beside the nodes it held, and its first node has the
    smallest frequency of all. *)
Theorem make_heap_spec (freq_dict : dict ascii Z) (self : HuffmanEncoder) :
  heap_ok (heap self) ->
  exists h',
    make_heap freq_dict self = (set_heap h' self, Ok tt)
    /\ heap_ok h'
    /\ length h' = (length (heap self) + length freq_dict)%nat
    /\ h' ≡ₚ heap self ++ map (fun item => new_Node (Some item.1) item.2) freq_dict
    /\ Forall (fun node => freq (h' !!! 0%nat) <= freq node) h'.
Proof.
  intros Hok.
  destruct (make_heap_loop_ok freq_dict (heap self) Hok) as (Hok' & Hlen & Hperm).
  eexists. split; [reflexivity|]. repeat split; try done.
  apply Forall_forall. intros node Hnode. by apply heap_ok_min_elem.
Qed.

Lemma make_heap_spec_witness :
  exists h',
    make_heap [("x"%char, 5); ("y"%char, 1)] sample_encoder
      = (set_heap h' sample_encoder, Ok tt)
    /\ heap_ok h'
    /\ length h' = 3%nat
    /\ freq (h' !!! 0%nat) = 1.
Proof.
  destruct (make_heap_spec [("x"%char, 5); ("y"%char, 1)] sample_encoder)
    as (h' & Hrun & Hok & Hlen & _).
  - intros i Hi. simpl in Hi. lia.
  - exists h'. split; [exact Hrun|]. split; [exact Hok|]. split; [exact Hlen|].
    injection Hrun as <-. reflexivity.
Defined.

(** ** merge_nodes on any heap *)

Lemma sum_freq_Permutation h1 h2 : h1 ≡ₚ h2 -> sum_freq h1 = sum_freq h2.
Proof.
  unfold sum_freq. induction 1; simpl; lia.
Qed.

Lemma merge_body_any h :
  (1 < length h)%nat ->
  exists node1 node2 rest,
    h ≡ₚ node1 :: node2 :: rest
    /\ merge_body h = (heappush rest (merged_node node1 node2), Ok tt).
Proof.
  intros Hlen.
  destruct (heappop_Permutation h) as (n1 & h1 & Hp1 & Hperm1 & Hl1).
  { intros ->. simpl in Hlen. lia. }
  destruct (heappop_Permutation h1) as (n2 & h2 & Hp2 & Hperm2 & Hl2).
  { intros ->. simpl in *. lia. }
  exists n1, n2, h2. split; [by rewrite Hperm1, Hperm2|].
  unfold merge_body. by rewrite Hp1, Hp2.
Qed.

(** What every pass keeps, whatever the order of the heap: the characters at
    the leaves, the sum of the frequencies, and the number of nodes without
    character plus the number of trees. *)
Lemma merge_loop_any fuel h :
  (length h <= S fuel)%nat ->
  exists h',
    merge_loop fuel h = (h', Ok tt)
    /\ length h' = Nat.min 1 (length h)
    /\ flat_map leaf_chars h' ≡ₚ flat_map leaf_chars h
    /\ sum_freq h' = sum_freq h
    /\ (count_internal h' + length h')%nat = (count_internal h + length h)%nat.
Proof.
  revert h. induction fuel as [|fuel IH]; intros h Hlen.
  - exists h. split; [done|]. split; [lia|]. done.
  - cbn [merge_loop]. destruct (Nat.ltb_spec 1 (length h)) as [H1|H1].
    + destruct (merge_body_any h H1) as (n1 & n2 & rest & Hperm & Hbody).
      rewrite Hbody.
      pose proof (heappush_Permutation rest (merged_node n1 n2)) as Hpush.
      pose proof (Permutation_length Hperm) as Hl. simpl in Hl.
      pose proof (heappush_length rest (merged_node n1 n2)) as Hl'.
      destruct (IH (heappush rest (merged_node n1 n2)) ltac:(lia))
        as (h' & Hloop & Hlen' & Hleaf & Hsum & Hint).
      exists h'. split; [done|]. split; [lia|]. split; [|split].
      * rewrite Hleaf, Hpush, Hperm. simpl. by rewrite app_assoc.
      * rewrite Hsum, (sum_freq_Permutation _ _ Hpush), (sum_freq_Permutation _ _ Hperm).
        unfold sum_freq. simpl. lia.
      * rewrite Hint, Hl', Hl. unfold count_internal. rewrite Hpush, Hperm.
        simpl. lia.
    + exists h. split; [done|]. split; [lia|]. done.
Qed.

(** X2. [merge_nodes] never raises, whatever the heap holds and in whatever
    order: it writes nothing but [self.heap], leaves one node when the heap
    had any and none otherwise, and the trees it leaves have the same
    characters at their leaves and the same total frequency as before. *)
Theorem merge_nodes_total (self : HuffmanEncoder) :
  exists h',
    merge_nodes self = (set_heap h' self, Ok tt)
    /\ length h' = Nat.min 1 (length (heap self))
    /\ flat_map leaf_chars h' ≡ₚ flat_map leaf_chars (heap self)
    /\ sum_freq h' = sum_freq (heap self).
Proof.
  destruct (merge_loop_any (length (heap self)) (heap self) ltac:(lia))
    as (h' & Hloop & Hlen & Hleaf & Hsum & _).
  exists h'. unfold merge_nodes. by rewrite Hloop.
Qed.

(** ** The tree of a text *)

Lemma sum_freq_new (freq_dict : dict ascii Z) :
  sum_freq (map (fun item => new_Node (Some item.1) item.2) freq_dict)
  = sum_values freq_dict.
Proof.
  unfold sum_freq, sum_values, dict_values.
  induction freq_dict as [|[c f] d IH]; simpl; [done|]. by rewrite IH.
Qed.

Lemma count_internal_new (freq_dict : dict ascii Z) :
  count_internal (map (fun item => new_Node (Some item.1) item.2) freq_dict) = 0%nat.
Proof.
  unfold count_internal. induction freq_dict as [|[c f] d IH]; simpl; [done|].
  by rewrite IH.
Qed.

Lemma frequency_dict_sum text : sum_values (frequency_dict text) = Z.of_nat (length text).
Proof.
  destruct (count_loop_spec text []) as (_ & Hsum & _).
  unfold frequency_dict. rewrite Hsum. unfold sum_values. simpl. lia.
Qed.

(** The tree that the first three calls of [compress] build. *)
Lemma huffman_root_spec text :
  text <> [] ->
  merge_loop (length (loaded_heap text)) (loaded_heap text)
    = ([huffman_root text], Ok tt)
  /\ strictly_binary (huffman_root text) = true
  /\ leaf_chars (huffman_root text) ≡ₚ dict_keys (frequency_dict text)
  /\ freq (huffman_root text) = Z.of_nat (length text)
  /\ (internal_nodes (huffman_root text) + 1)%nat = distinct_symbols text.
Proof.
  intros Hne.
  destruct (make_heap_loop_spec (frequency_dict text) [] heap_inv_nil)
    as (Hinv & Hlen & Hperm).
  fold (loaded_heap text) in *. simpl in Hperm, Hlen.
  destruct (merge_loop_spec (length (loaded_heap text)) (loaded_heap text) Hinv)
    as (root & Hloop & Hsb & Hleaf).
  { intros Hnil. rewrite Hnil in Hlen. simpl in Hlen.
    pose proof (frequency_dict_nonempty text Hne).
    destruct (frequency_dict text); [done|simpl in Hlen; lia]. }
  { lia. }
  destruct (merge_loop_any (length (loaded_heap text)) (loaded_heap text) ltac:(lia))
    as (h' & Hloop' & _ & _ & Hsum & Hint).
  rewrite Hloop in Hloop'. injection Hloop' as <-.
  assert (huffman_root text = root) as -> by (unfold huffman_root; by rewrite Hloop).
  split; [done|]. split; [done|]. split; [|split].
  - rewrite Hleaf, Hperm. by rewrite flat_map_leaf_chars_new.
  - rewrite (sum_freq_Permutation _ _ Hperm), sum_freq_new, frequency_dict_sum in Hsum.
    unfold sum_freq in Hsum. simpl in Hsum. lia.
  - unfold count_internal in Hint. rewrite Hperm in Hint.
    fold (count_internal (map (fun item => new_Node (Some item.1) item.2)
                            (frequency_dict text))) in Hint.
    rewrite count_internal_new, length_map in Hint. simpl in Hint.
    unfold distinct_symbols. lia.
Qed.

Lemma build_tree_run text self :
  text <> [] -> heap self = [] ->
  (freq_dict <- make_frequency_dict text ;; _ <- make_heap freq_dict ;; merge_nodes) self
  = (set_heap [huffman_root text] self, Ok tt).
Proof.
  intros Hne Hheap. destruct (huffman_root_spec text Hne) as (Hloop & _).
  unfold bind, make_frequency_dict, ret, make_heap, merge_nodes.
  cbn [heap set_heap]. rewrite Hheap. fold (loaded_heap text). by rewrite Hloop.
Qed.

Lemma build_codes_run text self :
  text <> [] -> heap self = [] ->
  build_codes text self = (after_codes (huffman_root text) self, Ok tt).
Proof.
  intros Hne Hheap. destruct (huffman_root_spec text Hne) as (Hloop & _).
  unfold build_codes, bind, make_frequency_dict, ret, make_heap, merge_nodes.
  cbn [heap set_heap]. rewrite Hheap. fold (loaded_heap text). rewrite Hloop.
  unfold make_codes, bind, heappop_self. cbn [heap set_heap]. done.
Qed.

Lemma huffman_root_leaves text c :
  text <> [] -> c ∈ leaf_chars (huffman_root text) <-> c ∈ text.
Proof.
  intros Hne. destruct (huffman_root_spec text Hne) as (_ & _ & Hleaf & _).
  rewrite Hleaf. apply frequency_dict_keys.
Qed.

Lemma huffman_root_NoDup text : text <> [] -> NoDup (leaf_chars (huffman_root text)).
Proof.
  intros Hne. destruct (huffman_root_spec text Hne) as (_ & _ & Hleaf & _).
  rewrite Hleaf. apply frequency_dict_NoDup.
Qed.

(** X3. On a non-empty text, [make_frequency_dict], [make_heap] and
    [merge_nodes] leave a single tree in the heap, and the frequency of its
    root is the length of the text. *)
Theorem root_frequency_is_length (text : str) :
  text <> [] ->
  (freq_dict <- make_frequency_dict text ;; _ <- make_heap freq_dict ;; merge_nodes)
    new_HuffmanEncoder
  = (set_heap [huffman_root text] new_HuffmanEncoder, Ok tt)
  /\ freq (huffman_root text) = Z.of_nat (length text).
Proof.
  intros Hne. split; [by apply build_tree_run|].
  by destruct (huffman_root_spec text Hne) as (_ & _ & _ & Hfreq & _).
Qed.

Lemma root_frequency_is_length_witness :
  (freq_dict <- make_frequency_dict (py "abracadabra") ;;
   _ <- make_heap freq_dict ;; merge_nodes) new_HuffmanEncoder
  = (set_heap [huffman_root (py "abracadabra")] new_HuffmanEncoder, Ok tt)
  /\ freq (huffman_root (py "abracadabra")) = 11.
Proof. apply (root_frequency_is_length (py "abracadabra")). discriminate. Defined.

(** X4. The tree of a non-empty text has exactly one leaf for every distinct
    symbol of the text and no other, and one node without character fewer
    than it has leaves. *)
Theorem tree_leaves_are_symbols (text : str) :
  text <> [] ->
  NoDup (leaf_chars (huffman_root text))
  /\ (forall c, c ∈ leaf_chars (huffman_root text) <-> c ∈ text)
  /\ length (leaf_chars (huffman_root text)) = distinct_symbols text
  /\ (internal_nodes (huffman_root text) + 1)%nat = distinct_symbols text.
Proof.
  intros Hne. destruct (huffman_root_spec text Hne) as (_ & _ & Hleaf & _ & Hint).
  split; [by apply huffman_root_NoDup|]. split; [intros c; by apply huffman_root_leaves|].
  split; [|done]. rewrite Hleaf. unfold distinct_symbols, dict_keys. by rewrite length_map.
Qed.

Lemma tree_leaves_are_symbols_witness :
  NoDup (leaf_chars (huffman_root (py "abracadabra")))
  /\ (forall c, c ∈ leaf_chars (huffman_root (py "abracadabra")) <-> c ∈ py "abracadabra")
  /\ length (leaf_chars (huffman_root (py "abracadabra"))) = 5%nat
  /\ (internal_nodes (huffman_root (py "abracadabra")) + 1)%nat = 5%nat.
Proof. apply (tree_leaves_are_symbols (py "abracadabra")). discriminate. Defined.

(** ** The two tables after make_codes *)

Lemma leaf_at_leaf_chars node path c : leaf_at node path c -> c ∈ leaf_chars node.
Proof.
  induction 1 as [c f l r|f l r p c H IH|f l r p c H IH]; cbn [leaf_chars].
  - apply list_elem_of_here.
  - apply elem_of_app. by left.
  - apply elem_of_app. by right.
Qed.

Lemma leaf_at_depth node path c :
  leaf_at node path c -> (length path <= internal_nodes node)%nat.
Proof.
  induction 1 as [c f l r|f l r p c H IH|f l r p c H IH];
    cbn [internal_nodes List.length]; lia.
Qed.

Lemma leaf_at_unique_path node : forall p1 p2 c,
  NoDup (leaf_chars node) -> leaf_at node p1 c -> leaf_at node p2 c -> p1 = p2.
Proof.
  intros p1 p2 c Hnd H1. revert p2 Hnd.
  induction H1 as [c f l r|f l r p c H1 IH|f l r p c H1 IH]; intros p2 Hnd H2;
    inversion H2 as [|? ? ? q ? Hq|? ? ? q ? Hq]; subst; try done;
    cbn [leaf_chars] in Hnd; apply NoDup_app in Hnd as (Hl & Hdisj & Hr).
  - f_equal. by apply IH.
  - exfalso. apply (Hdisj c); by eapply leaf_at_leaf_chars.
  - exfalso. apply (Hdisj c); by eapply leaf_at_leaf_chars.
  - f_equal. by apply IH.
Qed.

(** The reverse table: as [codes_of_node_get], [codes_of_node_covers]. *)
Lemma codes_of_node_rget node : forall current_code t code c,
  dict_get code (codes_of_node node current_code t).2 = Some c ->
  dict_get code t.2 = Some c
  \/ exists path, leaf_at node path c /\ code = current_code ++ path.
Proof.
  induction node as [ch f l r IHl IHr] using Node_tree_ind.
  intros cur t code c. destruct ch as [ch|]; cbn [codes_of_node snd].
  - rewrite dict_get_set. destruct (decide (code = cur)) as [->|Hne]; [|by left].
    intros [= <-]. right. exists []. split; [constructor|by rewrite app_nil_r].
  - set (t1 := match l with Some n => codes_of_node n (cur ++ py "0") t | None => t end).
    intros Hget.
    assert (dict_get code t1.2 = Some c
            \/ exists path, leaf_at (mkNode None f l r) path c /\ code = cur ++ path)
      as [Hget1|?]; [|subst t1|by right].
    { destruct r as [n|]; [|by left].
      apply (IHr n eq_refl) in Hget as [?|(path & Hleaf & ->)]; [by left|].
      right. exists ("1"%char :: path). split; [by constructor|].
      by rewrite <- app_assoc. }
    destruct l as [n|]; [|by left].
    apply (IHl n eq_refl) in Hget1 as [?|(path & Hleaf & ->)]; [by left|].
    right. exists ("0"%char :: path). split; [by constructor|].
    by rewrite <- app_assoc.
Qed.

Lemma codes_of_node_rmono node : forall current_code t code,
  is_Some (dict_get code t.2) ->
  is_Some (dict_get code (codes_of_node node current_code t).2).
Proof.
  induction node as [ch f l r IHl IHr] using Node_tree_ind.
  intros cur t code Hs. destruct ch as [ch|]; cbn [codes_of_node snd].
  - rewrite dict_get_set. destruct (decide (code = cur)); [by eexists|done].
  - destruct l as [nl|], r as [nr|]; try done.
    + by apply (IHr nr eq_refl), (IHl nl eq_refl).
    + by apply (IHl nl eq_refl).
    + by apply (IHr nr eq_refl).
Qed.

Lemma codes_of_node_rcovers node path c :
  leaf_at node path c -> forall current_code t,
  is_Some (dict_get (current_code ++ path) (codes_of_node node current_code t).2).
Proof.
  induction 1 as [c f l r|f l r p c H IH|f l r p c H IH]; intros cur t;
    cbn [codes_of_node snd].
  - rewrite app_nil_r, dict_get_set_eq. by eexists.
  - specialize (IH (cur ++ py "0") t). rewrite <- app_assoc in IH.
    destruct r as [nr|]; [|done]. by apply codes_of_node_rmono.
  - destruct l as [nl|].
    + specialize (IH (cur ++ py "1") (codes_of_node nl (cur ++ py "0") t)).
      by rewrite <- app_assoc in IH.
    + specialize (IH (cur ++ py "1") t). by rewrite <- app_assoc in IH.
Qed.

(** On a new encoder the entries of the two tables are the leaves of the
    tree: the symbol, and the path to it. *)
Lemma codes_entry_leaf root c code :
  NoDup (leaf_chars root) ->
  dict_get c (codes (after_codes root new_HuffmanEncoder)) = Some code
  <-> leaf_at root code c.
Proof.
  intros Hnd. unfold after_codes, set_tables, set_heap, new_HuffmanEncoder.
  cbn [codes reverse_codes heap padding fst snd].
  split.
  - intros Hget. by apply codes_of_node_get in Hget as [?|(path & Hleaf & ->)].
  - intros Hleaf.
    destruct (codes_of_node_covers root [] ([], []) c) as [code' Hget].
    { by eapply leaf_at_leaf_chars. }
    assert (code' = code) as <-; [|exact Hget].
    apply codes_of_node_get in Hget as [?|(path & Hleaf' & ->)]; [done|].
    by apply (leaf_at_unique_path root _ _ c).
Qed.

Lemma reverse_entry_leaf root c code :
  dict_get code (reverse_codes (after_codes root new_HuffmanEncoder)) = Some c
  <-> leaf_at root code c.
Proof.
  unfold after_codes, set_tables, set_heap, new_HuffmanEncoder.
  cbn [codes reverse_codes heap padding fst snd].
  split.
  - intros Hget. by apply codes_of_node_rget in Hget as [?|(path & Hleaf & ->)].
  - intros Hleaf.
    destruct (codes_of_node_rcovers root code c Hleaf [] ([], [])) as [c' Hget].
    assert (c' = c) as <-; [|exact Hget].
    apply codes_of_node_rget in Hget as [?|(path & Hleaf' & Heq)]; [done|].
    simpl in Heq. subst path.
    by destruct (leaf_at_prefix _ _ _ _ _ Hleaf' Hleaf (reflexivity _)).
Qed.

Lemma build_codes_new text :
  text <> [] ->
  build_codes text new_HuffmanEncoder
  = (after_codes (huffman_root text) new_HuffmanEncoder, Ok tt).
Proof. intros Hne. by apply build_codes_run. Qed.

Lemma codes_domain text c :
  text <> [] ->
  is_Some (dict_get c (codes (after_codes (huffman_root text) new_HuffmanEncoder)))
  <-> c ∈ text.
Proof.
  intros Hne. rewrite <- (huffman_root_leaves text c Hne). split.
  - intros [code Hget]. apply codes_entry_leaf in Hget; [|by apply huffman_root_NoDup].
    by eapply leaf_at_leaf_chars.
  - intros Hc. by apply codes_of_node_covers.
Qed.

(** X5. After the codes were built from a non-empty text on a new encoder,
    the code table has an entry for a symbol exactly when the symbol occurs
    in that text. So [get_encoded_text] returns the joined codes for every
    text written with these symbols, the text itself included, and raises
    [KeyError] for every text with another symbol. *)
Theorem code_table_domain (text : str) :
  text <> [] ->
  let coded := (build_codes text new_HuffmanEncoder).1 in
  (forall c, is_Some (dict_get c (codes coded)) <-> c ∈ text)
  /\ (forall text2, Forall (fun c => c ∈ text) text2 ->
        get_encoded_text text2 coded = (coded, Ok (join_codes (codes coded) text2)))
  /\ (forall text2, Exists (fun c => ~ (c ∈ text)) text2 ->
        exists k, k ∈ text2 /\ ~ (k ∈ text)
          /\ get_encoded_text text2 coded = (coded, Raise (KeyError k))).
Proof.
  intros Hne. cbv zeta. rewrite (build_codes_new text Hne). cbn [fst].
  set (coded := after_codes (huffman_root text) new_HuffmanEncoder).
  split; [intros c; by apply codes_domain|]. split.
  - intros text2 Hall. unfold get_encoded_text. f_equal.
    apply encode_loop_covered. eapply Forall_impl; [exact Hall|].
    intros c Hc. by apply codes_domain.
  - intros text2 Hex. unfold get_encoded_text.
    destruct (encode_loop_missing (codes coded) text2 (py "")) as (k & Hk & Hn & Hrun).
    { eapply Exists_impl; [exact Hex|]. intros c Hc. simpl in Hc.
      destruct (dict_get c (codes coded)) as [code|] eqn:Hget; [|done].
      exfalso. apply Hc. apply (codes_domain text c Hne). by eexists. }
    exists k. split; [done|]. split; [|by rewrite Hrun].
    intros Hin. apply (codes_domain text k Hne) in Hin as [code Hget].
    fold coded in Hget. congruence.
Qed.

Lemma code_table_domain_witness :
  let coded := (build_codes (py "abracadabra") new_HuffmanEncoder).1 in
  (forall c, is_Some (dict_get c (codes coded)) <-> c ∈ py "abracadabra")
  /\ (forall text2, Forall (fun c => c ∈ py "abracadabra") text2 ->
        get_encoded_text text2 coded = (coded, Ok (join_codes (codes coded) text2)))
  /\ (forall text2, Exists (fun c => ~ (c ∈ py "abracadabra")) text2 ->
        exists k, k ∈ text2 /\ ~ (k ∈ py "abracadabra")
          /\ get_encoded_text text2 coded = (coded, Raise (KeyError k))).
Proof. apply (code_table_domain (py "abracadabra")). discriminate. Defined.

(** X6. On a new encoder and a non-empty text, [reverse_codes] is the
    inverse of [codes]: a symbol has a code exactly when the reverse table
    maps that code back to the symbol. *)
Theorem reverse_codes_inverse (text : str) :
  text <> [] ->
  let coded := (build_codes text new_HuffmanEncoder).1 in
  forall c code,
    dict_get c (codes coded) = Some code
    <-> dict_get code (reverse_codes coded) = Some c.
Proof.
  intros Hne. cbv zeta. rewrite (build_codes_new text Hne). cbn [fst].
  intros c code. rewrite codes_entry_leaf by (by apply huffman_root_NoDup).
  by rewrite reverse_entry_leaf.
Qed.

Lemma reverse_codes_inverse_witness :
  dict_get "c"%char (codes (build_codes (py "abracadabra") new_HuffmanEncoder).1)
  = Some (py "100")
  <-> dict_get (py "100")
        (reverse_codes (build_codes (py "abracadabra") new_HuffmanEncoder).1)
      = Some "c"%char.
Proof. apply (reverse_codes_inverse (py "abracadabra")). discriminate. Defined.

(** X7. On a new encoder and a non-empty text every code is a string of
    ["0"] and ["1"], and so is the encoded text that [get_encoded_text]
    returns for the text. *)
Theorem encoded_text_binary (text : str) :
  text <> [] ->
  let coded := (build_codes text new_HuffmanEncoder).1 in
  (forall c code, dict_get c (codes coded) = Some code -> binary code)
  /\ exists encoded_text,
       get_encoded_text text coded = (coded, Ok encoded_text)
       /\ binary encoded_text.
Proof.
  intros Hne. cbv zeta. rewrite (build_codes_new text Hne). cbn [fst].
  set (coded := after_codes (huffman_root text) new_HuffmanEncoder).
  assert (forall c code, dict_get c (codes coded) = Some code -> binary code) as Hbin.
  { intros c code Hget.
    apply codes_entry_leaf in Hget; [|by apply huffman_root_NoDup].
    by eapply leaf_at_binary. }
  split; [done|]. exists (join_codes (codes coded) text). split.
  - unfold get_encoded_text. f_equal. apply encode_loop_covered.
    apply Forall_forall. intros c Hc. by apply codes_domain.
  - by apply join_codes_binary.
Qed.

Lemma encoded_text_binary_witness :
  let coded := (build_codes (py "abracadabra") new_HuffmanEncoder).1 in
  (forall c code, dict_get c (codes coded) = Some code -> binary code)
  /\ exists encoded_text,
       get_encoded_text (py "abracadabra") coded = (coded, Ok encoded_text)
       /\ binary encoded_text.
Proof. apply (encoded_text_binary (py "abracadabra")). discriminate. Defined.

(** X8. On a new encoder and a non-empty text, the length of every code is
    smaller than the number of distinct symbols of the text, and a code is
    the empty string exactly when the text has a single distinct symbol. *)
Theorem code_length_bounds (text : str) :
  text <> [] ->
  let coded := (build_codes text new_HuffmanEncoder).1 in
  forall c code,
    dict_get c (codes coded) = Some code ->
    (length code < distinct_symbols text)%nat
    /\ (code = [] <-> distinct_symbols text = 1%nat).
Proof.
  intros Hne. cbv zeta. rewrite (build_codes_new text Hne). cbn [fst].
  intros c code Hget.
  apply codes_entry_leaf in Hget; [|by apply huffman_root_NoDup].
  destruct (huffman_root_spec text Hne) as (_ & _ & _ & _ & Hint).
  pose proof (leaf_at_depth _ _ _ Hget) as Hdepth.
  split; [lia|]. split.
  - intros ->. inversion Hget as [? ? ? ? Hroot| |]. rewrite <- Hroot in Hint.
    simpl in Hint. lia.
  - intros H1. destruct code; [done|]. simpl in Hdepth. lia.
Qed.

Lemma code_length_bounds_witness :
  (length (py "100") < distinct_symbols (py "abracadabra"))%nat
  /\ (py "100" = [] <-> distinct_symbols (py "abracadabra") = 1%nat).
Proof.
  apply (code_length_bounds (py "abracadabra") ltac:(discriminate) "c"%char).
  reflexivity.
Defined.

(** ** The encoded text determines the text *)

(** With codes that are not empty and of which none is a prefix of the code
    of another symbol, joining codes is injective. *)
Lemma join_codes_inj (codes : dict ascii str) (alphabet : ascii -> Prop) :
  (forall a, alphabet a -> exists code, dict_get a codes = Some code /\ code <> []) ->
  (forall a b code_a code_b,
      dict_get a codes = Some code_a -> dict_get b codes = Some code_b ->
      code_a `prefix_of` code_b -> a = b) ->
  forall t1 t2, Forall alphabet t1 -> Forall alphabet t2 ->
    join_codes codes t1 = join_codes codes t2 -> t1 = t2.
Proof.
  intros Hcode Hpre. unfold join_codes.
  induction t1 as [|a t1 IH]; intros t2 H1 H2 Heq.
  - destruct t2 as [|b t2]; [done|]. inversion H2 as [|? ? Hb _]; subst.
    destruct (Hcode b Hb) as (code & Hget & Hne). simpl in Heq. rewrite Hget in Heq.
    simpl in Heq. symmetry in Heq. by apply app_eq_nil in Heq as [? _].
  - inversion H1 as [|? ? Ha H1']; subst.
    destruct (Hcode a Ha) as (code_a & Hga & Hna).
    destruct t2 as [|b t2].
    + simpl in Heq. rewrite Hga in Heq. simpl in Heq.
      by apply app_eq_nil in Heq as [? _].
    + inversion H2 as [|? ? Hb H2']; subst.
      destruct (Hcode b Hb) as (code_b & Hgb & Hnb).
      simpl in Heq. rewrite Hga, Hgb in Heq. simpl in Heq.
      assert (a = b) as <-.
      { destruct (prefix_weak_total code_a code_b (code_a ++ concat
                    (map (fun char => default [] (dict_get char codes)) t1)))
          as [Hp|Hp].
        - by apply prefix_app_r.
        - rewrite Heq. by apply prefix_app_r.
        - by apply (Hpre a b code_a code_b).
        - symmetry. by apply (Hpre b a code_b code_a). }
      assert (code_b = code_a) as -> by congruence.
      apply app_inv_head in Heq. f_equal. by apply IH.
Qed.

Lemma codes_inj_facts text :
  (2 <= distinct_symbols text)%nat ->
  text <> []
  /\ (forall a, a ∈ text -> exists code,
        dict_get a (codes (after_codes (huffman_root text) new_HuffmanEncoder))
        = Some code /\ code <> [])
  /\ (forall a b code_a code_b,
        dict_get a (codes (after_codes (huffman_root text) new_HuffmanEncoder))
        = Some code_a ->
        dict_get b (codes (after_codes (huffman_root text) new_HuffmanEncoder))
        = Some code_b ->
        code_a `prefix_of` code_b -> a = b).
Proof.
  intros H2.
  assert (text <> []) as Hne.
  { intros ->. unfold distinct_symbols in H2. simpl in H2. lia. }
  split; [done|].
  pose proof (huffman_root_NoDup text Hne) as Hnd.
  destruct (huffman_root_spec text Hne) as (_ & _ & _ & _ & Hint).
  split.
  - intros a Ha. apply (codes_domain text a Hne) in Ha as [code Hget].
    exists code. split; [done|]. intros ->.
    apply codes_entry_leaf in Hget; [|done].
    inversion Hget as [? ? ? ? Hroot| |]. rewrite <- Hroot in Hint.
    simpl in Hint. lia.
  - intros a b code_a code_b Ha Hb Hpre.
    apply codes_entry_leaf in Ha; [|done]. apply codes_entry_leaf in Hb; [|done].
    by destruct (leaf_at_prefix _ _ _ _ _ Ha Hb Hpre).
Qed.

(** X9. When the codes were built, on a new encoder, from a text with two
    distinct symbols or more, [get_encoded_text] is injective on the texts
    written with the symbols of that text: two of them with the same encoded
    text are the same text. *)
Theorem get_encoded_text_injective (text t1 t2 : str) :
  (2 <= distinct_symbols text)%nat ->
  Forall (fun c => c ∈ text) t1 -> Forall (fun c => c ∈ text) t2 ->
  let coded := (build_codes text new_HuffmanEncoder).1 in
  (get_encoded_text t1 coded).2 = (get_encoded_text t2 coded).2 ->
  t1 = t2.
Proof.
  intros H2 Ht1 Ht2. destruct (codes_inj_facts text H2) as (Hne & Hcode & Hpre).
  cbv zeta. rewrite (build_codes_new text Hne). cbn [fst].
  unfold get_encoded_text. cbn [snd].
  rewrite !encode_loop_covered.
  - intros [= Heq]. by apply (join_codes_inj _ (fun c => c ∈ text) Hcode Hpre).
  - eapply Forall_impl; [exact Ht2|]. intros c Hc. by apply codes_domain.
  - eapply Forall_impl; [exact Ht1|]. intros c Hc. by apply codes_domain.
Qed.

Lemma get_encoded_text_injective_witness :
  (2 <= distinct_symbols (py "abracadabra"))%nat /\ py "cab" = py "cab".
Proof.
  split; [vm_compute; lia|].
  apply (get_encoded_text_injective (py "abracadabra") (py "cab") (py "cab")).
  - vm_compute. lia.
  - apply Forall_forall. intros c Hc. apply list_elem_of_In in Hc.
    apply list_elem_of_In. vm_compute in Hc. vm_compute. tauto.
  - apply Forall_forall. intros c Hc. apply list_elem_of_In in Hc.
    apply list_elem_of_In. vm_compute in Hc. vm_compute. tauto.
  - reflexivity.
Defined.

(** ** The length of the encoded text *)

Lemma encode_loop_Ok codes text : forall acc encoded_text,
  encode_loop codes text acc = Ok encoded_text ->
  encoded_text = acc ++ join_codes codes text.
Proof.
  unfold join_codes. induction text as [|c text IH]; intros acc e; simpl.
  - intros [= <-]. by rewrite app_nil_r.
  - destruct (dict_get c codes) as [code|]; [|done]. intros Hrun.
    apply IH in Hrun as ->. simpl. by rewrite app_assoc.
Qed.

Lemma weighted_length_set k v d codes :
  weighted_length (dict_set k v d) codes
  = weighted_length d codes
    + (v - default 0 (dict_get k d))
      * Z.of_nat (length (default [] (dict_get k codes))).
Proof.
  unfold weighted_length. induction d as [|[k' v'] d IH]; simpl; [lia|].
  destruct (decide (k = k')) as [->|Hne]; simpl; [lia|]. rewrite IH. lia.
Qed.

Lemma weighted_length_loop codes text : forall d,
  weighted_length (fold_left count_char text d) codes
  = weighted_length d codes + Z.of_nat (length (join_codes codes text)).
Proof.
  unfold join_codes. induction text as [|c text IH]; intros d; simpl; [lia|].
  rewrite IH. unfold count_char. rewrite weighted_length_set, length_app. lia.
Qed.

(** X10. Whenever [get_encoded_text] returns, the length of the encoded text
    is the sum, over the entries of the frequency table of the text, of the
    count times the length of the code of the symbol. *)
Theorem encoded_length_weighted (text encoded_text : str) (self : HuffmanEncoder) :
  (get_encoded_text text self).2 = Ok encoded_text ->
  Z.of_nat (length encoded_text) = weighted_length (frequency_dict text) (codes self).
Proof.
  unfold get_encoded_text. cbn [snd]. intros Hrun.
  apply encode_loop_Ok in Hrun as ->. simpl.
  unfold frequency_dict. rewrite weighted_length_loop. unfold weighted_length. simpl. lia.
Qed.

Lemma encoded_length_weighted_witness :
  Z.of_nat (length (py "010100"))
  = weighted_length (frequency_dict (py "abba")) (codes sample_encoder).
Proof.
  apply (encoded_length_weighted (py "abba") (py "010100") sample_encoder).
  reflexivity.
Defined.

(** ** Packing and reading back *)

(** A byte written from eight binary digits shows these digits again. *)
Lemma bits8_int_base2 s :
  binary s -> length s = 8%nat ->
  exists v, int_base2 s = Ok v /\ byte_value v = Ok v /\ bits8 v = s.
Proof.
  intros Hbin Hlen.
  do 9 (destruct s as [|? s]; try discriminate Hlen).
  repeat match goal with
         | H : binary (_ :: _) |- _ => inversion H; clear H; subst
         | H : Forall _ (_ :: _) |- _ => inversion H; clear H; subst
         end.
  repeat match goal with
         | H : _ = _ \/ _ = _ |- _ => destruct H as [-> | ->]
         end;
    eexists; (split; [vm_compute; reflexivity|]); split; reflexivity.
Qed.

Lemma chunks_concat (m : nat) : forall (l : str),
  (length l <= 8 * m)%nat ->
  concat (map (fun i => take 8 (drop i l)) (map (fun k => (8 * k)%nat) (seq 0 m))) = l.
Proof.
  induction m as [|m IH]; intros l Hlen.
  - destruct l; [done|simpl in Hlen; lia].
  - cbn [seq map concat]. rewrite <- seq_shift, !map_map.
    replace (8 * 0)%nat with 0%nat by lia. rewrite drop_0.
    rewrite <- (take_drop 8 l) at 2. f_equal.
    etransitivity; [|apply (IH (drop 8 l)); rewrite length_drop; lia].
    rewrite map_map. f_equal. apply map_ext. intros k.
    rewrite drop_drop. do 2 f_equal. lia.
Qed.

Lemma pack_loop_chunks padded_text idx : forall final_bytes,
  binary padded_text -> Forall (fun i => (i + 8 <= length padded_text)%nat) idx ->
  exists bytes,
    pack_loop padded_text idx final_bytes = Ok (final_bytes ++ bytes)
    /\ map bits8 bytes = map (fun i => take 8 (drop i padded_text)) idx
    /\ Forall (fun b => 0 <= b < 256) bytes.
Proof.
  induction idx as [|i idx IH]; intros acc Hbin Hidx; simpl.
  - exists []. by rewrite app_nil_r.
  - inversion Hidx as [|? ? Hi Hidx']; subst.
    destruct (bits8_int_base2 (take 8 (drop i padded_text))) as (v & Hv & Hbyte & Hbits).
    { by apply Forall_take, Forall_drop. }
    { rewrite length_take, length_drop. lia. }
    rewrite Hv, Hbyte.
    destruct (IH (acc ++ [v]) Hbin Hidx') as (bytes & Hrun & Hmap & Hrange).
    exists (v :: bytes). rewrite Hrun, <- app_assoc. simpl. rewrite Hbits, Hmap.
    split; [done|]. split; [done|]. constructor; [|done].
    unfold byte_value in Hbyte.
    destruct (Z.leb_spec 0 v); [|done]. destruct (Z.ltb_spec v 256); [lia|done].
Qed.

(** The loop of [compress] over a string of binary digits whose length is a
    multiple of 8. *)
Lemma pack_bytes_spec padded_text :
  binary padded_text -> (length padded_text mod 8 = 0)%nat ->
  exists bytes,
    pack_bytes padded_text = Ok bytes
    /\ concat (map bits8 bytes) = padded_text
    /\ (8 * length bytes)%nat = length padded_text
    /\ Forall (fun b => 0 <= b < 256) bytes.
Proof.
  intros Hbin Hmod. unfold pack_bytes, range8.
  set (m := ((length padded_text + 7) / 8)%nat).
  assert (length padded_text = 8 * m)%nat as Hm by (subst m; lia).
  destruct (pack_loop_chunks padded_text (map (fun k => (8 * k)%nat) (seq 0 m)) [])
    as (bytes & Hrun & Hmap & Hrange); [done| |].
  { apply Forall_forall. intros i Hi. apply list_elem_of_In, in_map_iff in Hi.
    destruct Hi as (k & <- & Hk). apply in_seq in Hk. lia. }
  exists bytes. split; [done|]. split; [|split; [|done]].
  - rewrite Hmap. apply chunks_concat. lia.
  - apply (f_equal length) in Hmap. rewrite !length_map, length_seq in Hmap. lia.
Qed.

(** The calls of [compress] after [get_encoded_text], on a string of binary
    digits. *)
Lemma pack_encoded_spec encoded_text self :
  binary encoded_text ->
  exists header final_bytes,
    pack_encoded encoded_text self
    = (set_padding header self, Ok (header :: final_bytes))
    /\ header = 8 - Z.of_nat (length encoded_text) mod 8
    /\ 1 <= header <= 8
    /\ 8 * Z.of_nat (length final_bytes) = Z.of_nat (length encoded_text) + header
    /\ Forall (fun b => 0 <= b < 256) final_bytes
    /\ unpack (header :: final_bytes) = encoded_text.
Proof.
  intros Hbin.
  destruct (pad_encoded_text_facts encoded_text) as (Hp & _ & Hlen & Hmod).
  set (header := 8 - Z.of_nat (length encoded_text) mod 8) in *.
  set (padded_text := encoded_text ++ replicate (Z.to_nat header) "0"%char) in *.
  destruct (pack_bytes_spec padded_text) as (bytes & Hrun & Hbits & Hl & Hrange).
  { apply Forall_app. split; [done|]. apply Forall_replicate. by left. }
  { lia. }
  exists header, bytes. split; [|split; [done|split; [done|split; [lia|split; [done|]]]]].
  - unfold pack_encoded, bind, pad_encoded_text, lift, ret.
    fold header. fold padded_text. rewrite Hrun. unfold byte_value.
    destruct (Z.leb_spec 0 header); [|lia]. destruct (Z.ltb_spec header 256); [done|lia].
  - cbn [unpack]. rewrite Hbits. subst padded_text.
    rewrite length_app, length_replicate.
    replace (length encoded_text + Z.to_nat header - Z.to_nat header)%nat
      with (length encoded_text) by lia.
    by rewrite take_app_length.
Qed.

(** X11. The part of [compress] after [get_encoded_text] never raises on a
    string of binary digits: it stores the padding, between 1 and 8, and
    returns it as the first byte, followed by one byte between 0 and 255 for
    every eight digits of the padded string; the digits of these bytes, the
    most significant first, without the last [padding] ones, are the string
    it was given. *)
Theorem pack_unpack (encoded_text : str) (self : HuffmanEncoder) :
  binary encoded_text ->
  exists header final_bytes,
    pack_encoded encoded_text self
    = (set_padding header self, Ok (header :: final_bytes))
    /\ 1 <= header <= 8
    /\ 8 * Z.of_nat (length final_bytes) = Z.of_nat (length encoded_text) + header
    /\ Forall (fun b => 0 <= b < 256) final_bytes
    /\ unpack (header :: final_bytes) = encoded_text.
Proof.
  intros Hbin.
  destruct (pack_encoded_spec encoded_text self Hbin)
    as (header & bytes & Hrun & _ & Hh & Hlen & Hrange & Hun).
  by exists header, bytes.
Qed.

Lemma pack_unpack_witness :
  exists header final_bytes,
    pack_encoded (py "1010101") sample_encoder
    = (set_padding header sample_encoder, Ok (header :: final_bytes))
    /\ 1 <= header <= 8
    /\ 8 * Z.of_nat (length final_bytes) = Z.of_nat (length (py "1010101")) + header
    /\ Forall (fun b => 0 <= b < 256) final_bytes
    /\ unpack (header :: final_bytes) = py "1010101".
Proof.
  apply (pack_unpack (py "1010101") sample_encoder).
  unfold binary, py. cbn [list_ascii_of_string].
  repeat (constructor; [first [by left|by right]|]). constructor.
Defined.

(** ** The outcomes of compress *)

Lemma compress_text_run text :
  text <> [] ->
  exists header final_bytes,
    compress_text text new_HuffmanEncoder
    = (set_padding header (build_codes text new_HuffmanEncoder).1,
       Ok (header :: final_bytes))
    /\ 1 <= header <= 8
    /\ Forall (fun b => 0 <= b < 256) final_bytes
    /\ unpack (header :: final_bytes)
       = join_codes (codes (build_codes text new_HuffmanEncoder).1) text.
Proof.
  intros Hne. rewrite compress_text_split. unfold bind.
  rewrite (build_codes_new text Hne). cbn [fst].
  set (coded := after_codes (huffman_root text) new_HuffmanEncoder).
  rewrite pack_covered
    by (apply Forall_forall; intros c Hc; by apply codes_domain).
  destruct (pack_encoded_spec (join_codes (codes coded) text) coded)
    as (header & bytes & Hrun & _ & Hh & _ & Hrange & Hun).
  { apply join_codes_binary. intros c code Hget.
    apply codes_entry_leaf in Hget; [|by apply huffman_root_NoDup].
    by eapply leaf_at_binary. }
  by exists header, bytes.
Qed.

(** X12. On a new encoder [compress] raises [FileNotFoundError] when
    [os.path.exists] does not find the input file, the exception of [open] or
    [read] when the file exists but cannot be read or decoded, and
    [IndexError] when the text read is empty, in all three cases without
    touching the encoder. On any other text the encoding itself never raises:
    the code table and the padding, between 1 and 8, are stored in the
    encoder, the bytes to write are the padding followed by bytes between 0
    and 255 whose digits, without the last [padding] ones, are the codes of
    the characters of the text in their order, and [compress] returns the
    name of the input with [".bin"] added, or raises the exception of
    [open] or [write] when the output file cannot be written. *)
Theorem compress_outcome (fs : FileSystem) (input_file : str) :
  let run := compress fs input_file new_HuffmanEncoder in
  if path_exists fs input_file then
    match read_text fs input_file with
    | Raise e => run = (new_HuffmanEncoder, Raise e)
    | Ok [] => run = (new_HuffmanEncoder, Raise IndexError)
    | Ok text =>
        exists header final_bytes,
          1 <= header <= 8
          /\ Forall (fun b => 0 <= b < 256) final_bytes
          /\ unpack (header :: final_bytes)
             = join_codes (codes (build_codes text new_HuffmanEncoder).1) text
          /\ run
             = (set_padding header (build_codes text new_HuffmanEncoder).1,
                match write_bytes fs (input_file ++ py ".bin") (header :: final_bytes) with
                | Ok _ => Ok (input_file ++ py ".bin", header :: final_bytes)
                | Raise e => Raise e
                end)
    end
  else run = (new_HuffmanEncoder, Raise (FileNotFoundError input_file)).
Proof.
  cbv zeta. unfold compress.
  destruct (path_exists fs input_file); cbn [negb]; [|done].
  unfold bind at 1, lift at 1.
  destruct (read_text fs input_file) as [[|c text]|e]; [done| |done].
  destruct (compress_text_run (c :: text)) as (header & bytes & Hrun & Hh & Hr & Hun);
    [done|].
  exists header, bytes. split; [done|]. split; [done|]. split; [done|].
  unfold bind, lift, ret. rewrite Hrun.
  by destruct (write_bytes fs _ _) as [[]|e].
Qed.

(** X13. When the codes were built, on a new encoder, from a text with two
    distinct symbols or more, the bytes that the rest of [compress] produces
    determine the text among the texts written with these symbols: two of
    them with the same bytes are the same text. *)
Theorem packed_bytes_determine_text (text t1 t2 : str) :
  (2 <= distinct_symbols text)%nat ->
  Forall (fun c => c ∈ text) t1 -> Forall (fun c => c ∈ text) t2 ->
  let coded := (build_codes text new_HuffmanEncoder).1 in
  (pack t1 coded).2 = (pack t2 coded).2 ->
  t1 = t2.
Proof.
  intros H2 Ht1 Ht2. destruct (codes_inj_facts text H2) as (Hne & Hcode & Hpre).
  cbv zeta. rewrite (build_codes_new text Hne). cbn [fst].
  set (coded := after_codes (huffman_root text) new_HuffmanEncoder).
  assert (forall t, Forall (fun c => c ∈ text) t ->
            exists content, (pack t coded).2 = Ok content
                            /\ unpack content = join_codes (codes coded) t) as Hpack.
  { intros t Ht. rewrite pack_covered
      by (eapply Forall_impl; [exact Ht|]; intros c Hc; by apply codes_domain).
    destruct (pack_encoded_spec (join_codes (codes coded) t) coded)
      as (header & bytes & Hrun & _ & _ & _ & _ & Hun).
    { apply join_codes_binary. intros c code Hget.
      apply codes_entry_leaf in Hget; [|by apply huffman_root_NoDup].
      by eapply leaf_at_binary. }
    exists (header :: bytes). by rewrite Hrun. }
  destruct (Hpack t1 Ht1) as (content1 & Hr1 & Hu1).
  destruct (Hpack t2 Ht2) as (content2 & Hr2 & Hu2).
  rewrite Hr1, Hr2. intros [= <-].
  apply (join_codes_inj _ (fun c => c ∈ text) Hcode Hpre); [done|done|].
  transitivity (unpack content1); [symmetry; exact Hu1|exact Hu2].
Qed.

Lemma packed_bytes_determine_text_witness :
  (2 <= distinct_symbols (py "abracadabra"))%nat /\ py "cab" = py "cab".
Proof.
  split; [vm_compute; lia|].
  apply (packed_bytes_determine_text (py "abracadabra") (py "cab") (py "cab")).
  - vm_compute. lia.
  - apply Forall_forall. intros c Hc. apply list_elem_of_In in Hc.
    apply list_elem_of_In. vm_compute in Hc. vm_compute. tauto.
  - apply Forall_forall. intros c Hc. apply list_elem_of_In in Hc.
    apply list_elem_of_In. vm_compute in Hc. vm_compute. tauto.
  - reflexivity.
Defined.

(** ** The code table as a list, and its Kraft sum *)

Lemma leaf_entries_keys node : forall current_code,
  dict_keys (leaf_entries node current_code) = leaf_chars node.
Proof.
  induction node as [c f l r IHl IHr] using Node_tree_ind. intros cur.
  destruct c as [c|]; cbn [leaf_entries leaf_chars]; [done|].
  unfold dict_keys. rewrite map_app. f_equal.
  - destruct l as [n|]; [apply (IHl n eq_refl)|done].
  - destruct r as [n|]; [apply (IHr n eq_refl)|done].
Qed.

(** With symbols that are new to the table and differ from one another,
    [make_codes_helper] appends one entry for every leaf. *)
Lemma codes_of_node_entries node : forall current_code d rd,
  NoDup (dict_keys d ++ leaf_chars node) ->
  (codes_of_node node current_code (d, rd)).1 = d ++ leaf_entries node current_code.
Proof.
  induction node as [c f l r IHl IHr] using Node_tree_ind. intros cur d rd Hnd.
  destruct c as [c|]; cbn [codes_of_node leaf_entries leaf_chars fst] in *.
  - apply dict_keys_set_new. apply dict_get_None.
    apply NoDup_app in Hnd as (_ & Hdisj & _). intros Hin.
    apply (Hdisj c Hin). apply list_elem_of_here.
  - rewrite app_assoc in Hnd.
    assert (NoDup (dict_keys d ++ match l with Some n => leaf_chars n | None => [] end))
      as Hndl by (by apply NoDup_app in Hnd as (? & _)).
    destruct l as [nl|].
    + destruct (codes_of_node nl (cur ++ py "0") (d, rd)) as [d1 rd1] eqn:Hl.
      assert (d1 = d ++ leaf_entries nl (cur ++ py "0")) as ->.
      { rewrite <- (IHl nl eq_refl (cur ++ py "0") d rd Hndl). by rewrite Hl. }
      destruct r as [nr|]; [|by rewrite app_nil_r].
      rewrite (IHr nr eq_refl); [by rewrite app_assoc|].
      assert (dict_keys (d ++ leaf_entries nl (cur ++ py "0"))
              = dict_keys d ++ leaf_chars nl) as ->; [|done].
      rewrite <- (leaf_entries_keys nl (cur ++ py "0")).
      unfold dict_keys. by rewrite map_app.
    + destruct r as [nr|]; [|by rewrite app_nil_r].
      rewrite (IHr nr eq_refl); [done|]. by rewrite app_nil_r in Hnd.
Qed.

Lemma kraft_sum_app depth codes1 codes2 :
  kraft_sum depth (codes1 ++ codes2) = kraft_sum depth codes1 + kraft_sum depth codes2.
Proof.
  unfold kraft_sum. induction codes1 as [|item codes1 IH]; simpl; [done|].
  rewrite IH. lia.
Qed.

Lemma kraft_sum_tree node : forall current_code depth,
  strictly_binary node = true ->
  (length current_code + internal_nodes node <= depth)%nat ->
  kraft_sum depth (leaf_entries node current_code)
  = 2 ^ Z.of_nat (depth - length current_code).
Proof.
  induction node as [c f l r IHl IHr] using Node_tree_ind. intros cur depth Hsb Hd.
  destruct c as [c|], l as [nl|], r as [nr|]; try discriminate Hsb.
  - unfold kraft_sum. simpl. lia.
  - cbn [strictly_binary] in Hsb.
    apply andb_prop in Hsb as [Hsb Hr]. apply andb_prop in Hsb as [_ Hl].
    cbn [leaf_entries internal_nodes] in *. rewrite kraft_sum_app.
    rewrite (IHl nl eq_refl), (IHr nr eq_refl); try done;
      try (rewrite length_app; simpl; lia).
    rewrite !length_app. cbn [List.length py list_ascii_of_string].
    replace (depth - length cur)%nat with (S (depth - (length cur + 1)))%nat by lia.
    rewrite Nat2Z.inj_succ, Z.pow_succ_r by lia. lia.
Qed.

Lemma codes_are_leaf_entries text :
  text <> [] ->
  codes (after_codes (huffman_root text) new_HuffmanEncoder)
  = leaf_entries (huffman_root text) [].
Proof.
  intros Hne. unfold after_codes, set_tables, set_heap, new_HuffmanEncoder.
  cbn [codes reverse_codes heap padding fst snd].
  rewrite codes_of_node_entries; [done|]. simpl. by apply huffman_root_NoDup.
Qed.

(** X14. On a new encoder and a non-empty text the code table has exactly
    one entry for every distinct symbol, and the code is complete: the sum of
    [2 ** -len(code)] over the table is 1 (here multiplied by [2 ** n] for
    the number [n] of distinct symbols, which no code length reaches). *)
Theorem code_table_complete (text : str) :
  text <> [] ->
  let coded := (build_codes text new_HuffmanEncoder).1 in
  length (codes coded) = distinct_symbols text
  /\ dict_keys (codes coded) ≡ₚ dict_keys (frequency_dict text)
  /\ kraft_sum (distinct_symbols text) (codes coded)
     = 2 ^ Z.of_nat (distinct_symbols text).
Proof.
  intros Hne. cbv zeta. rewrite (build_codes_new text Hne). cbn [fst].
  rewrite (codes_are_leaf_entries text Hne).
  destruct (huffman_root_spec text Hne) as (_ & Hsb & Hleaf & _ & Hint).
  assert (dict_keys (leaf_entries (huffman_root text) [])
          ≡ₚ dict_keys (frequency_dict text)) as Hkeys
    by (by rewrite leaf_entries_keys).
  split; [|split; [done|]].
  - apply Permutation_length in Hkeys. unfold dict_keys in Hkeys.
    rewrite !length_map in Hkeys. done.
  - rewrite kraft_sum_tree; [|done|simpl; lia]. simpl. do 2 f_equal. lia.
Qed.

Lemma code_table_complete_witness :
  let coded := (build_codes (py "abracadabra") new_HuffmanEncoder).1 in
  length (codes coded) = distinct_symbols (py "abracadabra")
  /\ dict_keys (codes coded) ≡ₚ dict_keys (frequency_dict (py "abracadabra"))
  /\ kraft_sum (distinct_symbols (py "abracadabra")) (codes coded)
     = 2 ^ Z.of_nat (distinct_symbols (py "abracadabra")).
Proof. apply (code_table_complete (py "abracadabra")). discriminate. Defined.
